(** * PDF outline extractor: a shallow embedding of [src/main.py]

    The development follows the pipeline of [extract_outline]:
    text normalisation ([clean_text]), noise filtering ([is_noisy]),
    title detection ([extract_title]), candidate collection, multi-line
    grouping ([group_multiline_headings]), threshold derivation,
    classification ([detect_heading_level]) and the final assembly with
    de-duplication. The two utilities, [detect_headings] of
    [src/utils/heading_detector.py] and [extract_pdf_elements] of
    [src/utils/pdf_utils.py], follow the definitions of the pipeline.

    Modelling conventions.
    - A Python [str] is a list of characters; the character classes
      ([\w], [\s], [str.lower], [str.islower]) are the ones Python assigns
      to the code points below 128.
    - A Python [float] is an exact rational ([Q]); [==], [>] and [>=] on
      numbers are [Qeq_bool] and [Qle_bool].
    - An exception ([IndexError]) is [None] in the [option] monad.
    - The layout provider (PyMuPDF) is outside the program: a document is
      the nested list of pages, blocks, lines and spans it hands over. *)

From Stdlib Require Import Ascii String QArith Qround Qabs Lqa.
From stdpp Require Import gmap strings list sorting.

Local Open Scope list_scope.

(** ** Strings *)

Module Str.

Abbreviation str := (list ascii).

Definition lit (s : string) : str := list_ascii_of_string s.

Definition code (c : ascii) : nat := nat_of_ascii c.

Definition between (lo hi : nat) (c : ascii) : bool :=
  (lo <=? code c)%nat && (code c <=? hi)%nat.

(** [str.isspace] on one character: TAB, LF, VT, FF, CR, the four
    separators FS..US and the space. *)
Definition isspace (c : ascii) : bool :=
  between 9 13 c || between 28 32 c.

Definition isupper (c : ascii) : bool := between 65 90 c.
Definition islower (c : ascii) : bool := between 97 122 c.
Definition isdigit (c : ascii) : bool := between 48 57 c.

(** The regular-expression class [\w]. *)
Definition isword (c : ascii) : bool :=
  islower c || isupper c || isdigit c || (code c =? 95)%nat.

Definition lower_char (c : ascii) : ascii :=
  if isupper c then ascii_of_nat (code c + 32) else c.

(** The line feed, ["\n"] in the source. *)
Definition LF : ascii := ascii_of_nat 10.

(** [text.lower()] *)
Definition lower (s : str) : str := map lower_char s.

Fixpoint take_while (p : ascii -> bool) (s : str) : str :=
  match s with
  | [] => []
  | c :: tl => if p c then c :: take_while p tl else []
  end.

Fixpoint drop_while (p : ascii -> bool) (s : str) : str :=
  match s with
  | [] => []
  | c :: tl => if p c then drop_while p tl else s
  end.

Definition lstrip_by (p : ascii -> bool) (s : str) : str := drop_while p s.
Definition rstrip_by (p : ascii -> bool) (s : str) : str :=
  rev (drop_while p (rev s)).

(** [text.strip()] *)
Definition strip (s : str) : str := rstrip_by isspace (lstrip_by isspace s).

(** [text.rstrip(chars)] *)
Definition rstrip_chars (chars : str) (s : str) : str :=
  rstrip_by (fun c => bool_decide (c ∈ chars)) s.

(** [text.endswith(c)] for a one-character suffix. *)
Definition endswith_char (c : ascii) (s : str) : bool :=
  match last s with
  | Some d => bool_decide (d = c)
  | None => false
  end.

(** [text.split()]: the maximal runs of non-space characters. [w] is the
    word being read. *)
Fixpoint split_go (w : str) (s : str) : list str :=
  match s with
  | [] => match w with [] => [] | _ => [w] end
  | c :: tl =>
      if isspace c
      then match w with
           | [] => split_go [] tl
           | _ => w :: split_go [] tl
           end
      else split_go (w ++ [c]) tl
  end.

Definition split (s : str) : list str := split_go [] s.

(** [sep.join(parts)] *)
Fixpoint join (sep : str) (parts : list str) : str :=
  match parts with
  | [] => []
  | [p] => p
  | p :: tl => p ++ sep ++ join sep tl
  end.

Fixpoint startswith (p s : str) : bool :=
  match p, s with
  | [], _ => true
  | _ :: _, [] => false
  | a :: p', b :: s' => bool_decide (a = b) && startswith p' s'
  end.

(** [needle in hay] *)
Fixpoint contains (needle hay : str) : bool :=
  startswith needle hay ||
  match hay with
  | [] => false
  | _ :: tl => contains needle tl
  end.

(** The left-to-right scan shared by [re.sub] and [str.replace]:
    [try_match s] answers whether a match starts at the head of [s] and,
    if so, gives its replacement and the text after the match, where the
    scan resumes. Without a match one character is copied. The recursion
    is on [fuel]; [length s] is enough since every match is non-empty. *)
Fixpoint sub_from (try_match : str -> option (str * str))
    (fuel : nat) (s : str) : str :=
  match fuel, s with
  | _, [] => []
  | O, _ => s
  | S n, c :: tl =>
      match try_match s with
      | Some (repl, rest) => repl ++ sub_from try_match n rest
      | None => c :: sub_from try_match n tl
      end
  end.

Definition sub (try_match : str -> option (str * str)) (s : str) : str :=
  sub_from try_match (length s) s.

(** [text.replace(old, new)] for a non-empty [old]. *)
Definition replace (old new : str) (s : str) : str :=
  sub (fun t => if startswith old t
                then Some (new, drop (length old) t) else None) s.

End Str.

Import Str.

(** ** TextNormalizer and NoiseFilter *)

(** A match of one of the two patterns of [clean_text]: the whole match
    and its two groups. *)
Record re_match := ReMatch {
  group0 : str;
  group1 : str;
  group2 : str;
  match_rest : str
}.

(** [\s+(\w)] at the head of [s]: the white-space run, the word character
    and the text after it. [\s+] is greedy, and giving characters back
    cannot help: the character after a shorter run is a space, which is
    not in [\w]. *)
Definition match_spaces_word (s : str) : option (str * ascii * str) :=
  match take_while isspace s, drop_while isspace s with
  | (_ :: _) as ws, g :: rest => if isword g then Some (ws, g, rest) else None
  | _, _ => None
  end.

(** [(\w)-\s+(\w)] at the head of [s]. *)
Definition match_hyphen_break (s : str) : option re_match :=
  match s with
  | g1 :: "-"%char :: tl =>
      if isword g1 then
        match match_spaces_word tl with
        | Some (ws, g2, rest) =>
            Some (ReMatch (g1 :: "-"%char :: ws ++ [g2]) [g1] [g2] rest)
        | None => None
        end
      else None
  | _ => None
  end.

(** [(\w)\s+(\w)] at the head of [s]. *)
Definition match_space_break (s : str) : option re_match :=
  match s with
  | g1 :: tl =>
      if isword g1 then
        match match_spaces_word tl with
        | Some (ws, g2, rest) =>
            Some (ReMatch (g1 :: ws ++ [g2]) [g1] [g2] rest)
        | None => None
        end
      else None
  | [] => None
  end.

(** [re.sub(pattern, repl, text)] with the replacement as a function of
    the match. *)
Definition re_sub (pattern : str -> option re_match)
    (repl : re_match -> str) (text : str) : str :=
  sub (fun t => match pattern t with
                | Some m => Some (repl m, match_rest m)
                | None => None
                end) text.

(** The replacement [r'\1\2']. *)
Definition repl_groups (m : re_match) : str := group1 m ++ group2 m.

(** The replacement
    [lambda m: m.group(1) + m.group(2)
               if len(m.group(1)) > 2 and len(m.group(2)) > 2
               else m.group(0)]. *)
Definition repl_long_groups (m : re_match) : str :=
  if (2 <? length (group1 m))%nat && (2 <? length (group2 m))%nat
  then group1 m ++ group2 m
  else group0 m.

Definition clean_text (text : str) : str :=
  let text := join (lit " ") (split (replace [LF] (lit " ") text)) in
  let text := re_sub match_hyphen_break repl_groups text in
  let text := re_sub match_space_break repl_long_groups text in
  strip text.

Definition NOISE_WORDS : list str :=
  map lit
    [ "open access"; "research"; "sustainable environment"; "article";
      "journal"; "abstract"; "introduction"; "references";
      "acknowledgments"; "appendix"; "received"; "accepted"; "published";
      "volume"; "issue"; "pp."; "pages" ]%string.

Definition is_noisy (text : str) : bool :=
  let text_lower := strip (lower text) in
  let contains_noise :=
    existsb (fun noise_word => contains noise_word text_lower) NOISE_WORDS in
  let is_too_short := (length (strip text) <=? 3)%nat in
  contains_noise || is_too_short.

(** ** Numbers *)

(** Round half to even, as Python's [round] does. *)
Definition round_half_even (q : Q) : Z :=
  let n := Qfloor q in
  match ((q - inject_Z n) ?= (1 # 2))%Q with
  | Lt => n
  | Gt => (n + 1)%Z
  | Eq => if Z.even n then n else (n + 1)%Z
  end.

(** [round(x, 1)] *)
Definition round1 (x : Q) : Q :=
  (inject_Z (round_half_even (x * 10)) / 10)%Q.

(** [a > b] on numbers. *)
Definition Qgt_bool (a b : Q) : bool := negb (Qle_bool a b).

(** ** Layout data handed over by the provider *)

Record span := Span {
  span_text : str;
  span_size : Q
}.

(** A line; [line_spans] is [None] when the key ["spans"] is absent. *)
Record line := Line {
  line_spans : option (list span)
}.

(** A block; [block_bbox] is the top-Y coordinate [bbox[1]] and
    [block_lines] the lines, each [None] when its key is absent (an image
    block has no ["lines"]). *)
Record block := Block {
  block_bbox : option Q;
  block_lines : option (list line)
}.

Abbreviation page := (list block).
Abbreviation document := (list page).

(** [d.get(key, [])] *)
Definition get_list {A} (o : option (list A)) : list A := default [] o.

(** ** TitleDetector *)

(** [size_to_texts[size].append(text)] on a [defaultdict(list)], kept as
    an association list in key-insertion order. *)
Fixpoint dict_append (size : Q) (text : str) (d : list (Q * list str))
    : list (Q * list str) :=
  match d with
  | [] => [(size, [text])]
  | (k, texts) :: tl =>
      if Qeq_bool k size then (k, texts ++ [text]) :: tl
      else (k, texts) :: dict_append size text tl
  end.

(** [max(keys)]: the first of the largest keys. *)
Definition max_of (keys : list Q) : option Q :=
  match keys with
  | [] => None
  | k :: tl => Some (fold_left (fun m x => if Qgt_bool x m then x else m) tl k)
  end.

Definition title_first_pass_span (d : list (Q * list str)) (sp : span)
    : list (Q * list str) :=
  let size := round1 (span_size sp) in
  let text := clean_text (span_text sp) in
  if is_noisy text || (length text <? 5)%nat then d
  else dict_append size text d.

Definition title_first_pass (blocks : page) : list (Q * list str) :=
  fold_left (fun d b =>
    fold_left (fun d l =>
      fold_left title_first_pass_span (get_list (line_spans l)) d)
      (get_list (block_lines b)) d)
    blocks [].

(** The accumulators of the second pass. *)
Record title_state := TitleState {
  title_parts : list str;
  previous_block_pos : option Q;
  current_title_block : list str
}.

Definition title_line_span (max_size : Q) (acc : list str * bool) (sp : span)
    : list str * bool :=
  if Qeq_bool (round1 (span_size sp)) max_size then
    let text := clean_text (span_text sp) in
    if negb (is_noisy text) then (acc.1 ++ [text], true) else acc
  else acc.

Definition title_line (max_size : Q) (block_pos : Q) (st : title_state)
    (l : line) : title_state :=
  let '(line_texts, line_has_title) :=
    fold_left (title_line_span max_size) (get_list (line_spans l))
              ([], false) in
  if line_has_title then
    let full_line_text := join (lit " ") line_texts in
    let continues :=
      match previous_block_pos st with
      | Some prev =>
          negb (Qle_bool 20 (Qabs (block_pos - prev)%Q))
          && (0 <? length (current_title_block st))%nat
      | None => false
      end in
    if continues then
      TitleState (title_parts st) (Some block_pos)
                 (current_title_block st ++ [full_line_text])
    else
      TitleState
        (match current_title_block st with
         | [] => title_parts st
         | _ => title_parts st ++ [join (lit " ") (current_title_block st)]
         end)
        (Some block_pos) [full_line_text]
  else st.

Definition title_second_pass (max_size : Q) (blocks : page) : title_state :=
  fold_left (fun st b =>
    let block_pos := default 0%Q (block_bbox b) in
    fold_left (title_line max_size block_pos) (get_list (block_lines b)) st)
    blocks (TitleState [] None []).

Definition extract_title (blocks : page) : str * option Q :=
  let size_to_texts := title_first_pass blocks in
  match max_of (map fst size_to_texts) with
  | None => ([], None)
  | Some max_size =>
      let st := title_second_pass max_size blocks in
      let parts :=
        match current_title_block st with
        | [] => title_parts st
        | _ => title_parts st ++ [join (lit " ") (current_title_block st)]
        end in
      (clean_text (join (lit " ") parts), Some max_size)
  end.

(** ** CandidateCollector *)

(** A heading candidate, the tuple [(size, text, page)]. *)
Record candidate := Cand {
  c_size : Q;
  c_text : str;
  c_page : nat
}.

(** One span of the inner loop: [(line_text, max_size_in_line)]. *)
Definition line_span (acc : list str * Q) (sp : span) : list str * Q :=
  let text := clean_text (span_text sp) in
  let size := round1 (span_size sp) in
  if is_noisy text then acc
  else (acc.1 ++ [text], if Qgt_bool size acc.2 then size else acc.2).

Definition line_candidates (page_num : nat) (l : line) : list candidate :=
  let '(line_text, max_size_in_line) :=
    fold_left line_span (get_list (line_spans l)) ([], 0%Q) in
  let full_line_text := clean_text (join (lit " ") line_text) in
  if negb (bool_decide (full_line_text = []))
     && (3 <? length full_line_text)%nat
     && negb (is_noisy full_line_text)
  then [Cand max_size_in_line full_line_text page_num]
  else [].

Definition page_candidates (acc : list candidate) (numbered : nat * page)
    : list candidate :=
  fold_left (fun acc b =>
    fold_left (fun acc l => acc ++ line_candidates numbered.1 l)
              (get_list (block_lines b)) acc)
    numbered.2 acc.

(** [enumerate(doc, start=1)] *)
Definition enumerate_from {A} (start : nat) (l : list A) : list (nat * A) :=
  zip (seq start (length l)) l.

Definition collect_candidates (doc : document) : list candidate :=
  fold_left page_candidates (enumerate_from 1 doc) [].

(** ** MultilineGrouper *)

(** [text.split()[0]] and [text.split()[-1]]; [None] is the [IndexError]
    of a text without a word. *)
Definition first_word (text : str) : option str := head (split text).
Definition last_word (text : str) : option str := last (split text).

(** The condition [should_merge], with Python's left-to-right
    short-circuit evaluation of [and] and [or]. *)
Definition should_merge (current_group c : candidate) : option bool :=
  if negb (Qeq_bool (c_size c) (c_size current_group)) then Some false
  else if negb (c_page c =? c_page current_group)%nat then Some false
  else
    ch ← head (c_text c);
    if islower ch then Some true
    else
      lw ← last_word (c_text current_group);
      if (length lw <=? 3)%nat then Some true
      else
        fw ← first_word (c_text c);
        Some (length fw <=? 3)%nat.

(** The condition of the inner [if]: join without a space. *)
Definition join_without_space (current_group c : candidate) : option bool :=
  if endswith_char "-" (c_text current_group) then Some true
  else
    lw ← last_word (c_text current_group);
    if (length lw <=? 2)%nat then Some true
    else
      fw ← first_word (c_text c);
      Some (length fw <=? 2)%nat.

(** One iteration of the loop over [heading_candidates[1:]]; the state is
    [(grouped, current_group)]. *)
Definition group_step (st : list candidate * candidate) (c : candidate)
    : option (list candidate * candidate) :=
  let '(grouped, current_group) := st in
  merge ← should_merge current_group c;
  if merge : bool then
    tight ← join_without_space current_group c;
    if tight : bool then
      Some (grouped,
            Cand (c_size current_group)
                 (rstrip_chars (lit "- ") (c_text current_group) ++ c_text c)
                 (c_page current_group))
    else
      Some (grouped,
            Cand (c_size current_group)
                 (c_text current_group ++ lit " " ++ c_text c)
                 (c_page current_group))
  else Some (grouped ++ [current_group], c).

(** A loop whose body may raise. *)
Fixpoint for_each {S A} (body : S -> A -> option S) (l : list A) (st : S)
    : option S :=
  match l with
  | [] => Some st
  | x :: tl => st' ← body st x; for_each body tl st'
  end.

Definition group_multiline_headings (heading_candidates : list candidate)
    : option (list candidate) :=
  match heading_candidates with
  | [] => Some []
  | first :: others =>
      '(grouped, current_group) ← for_each group_step others ([], first);
      Some (grouped ++ [current_group])
  end.

(** ** LevelThresholder *)

Inductive level := LvH1 | LvH2 | LvH3.

(** The dictionary [thresholds], keys ["H1"], ["H2"], ["H3"]. *)
Record thresholds := Thresholds {
  thr_H1 : Q;
  thr_H2 : Q;
  thr_H3 : Q
}.

Definition Qge_bool (a b : Q) : bool := Qle_bool b a.

Definition detect_heading_level (size : Q) (thr : thresholds)
    (title_size : option Q) : option level :=
  if match title_size with
     | Some t => Qeq_bool size t
     | None => false
     end
  then None
  else if Qge_bool size (thr_H1 thr) then Some LvH1
  else if Qge_bool size (thr_H2 thr) then Some LvH2
  else if Qge_bool size (thr_H3 thr) then Some LvH3
  else None.

(** [size != title_size] *)
Definition differs_from_title (title_size : option Q) (size : Q) : bool :=
  match title_size with
  | Some t => negb (Qeq_bool size t)
  | None => true
  end.

(** [set(sizes)]: one representative of every numerically equal class. *)
Fixpoint set_of (sizes : list Q) : list Q :=
  match sizes with
  | [] => []
  | x :: tl => x :: filter (fun y => negb (Qeq_bool y x)) (set_of tl)
  end.

Fixpoint insert_desc (x : Q) (l : list Q) : list Q :=
  match l with
  | [] => [x]
  | y :: tl => if Qle_bool y x then x :: l else y :: insert_desc x tl
  end.

(** [sorted(xs, reverse=True)] *)
Definition sorted_reverse (xs : list Q) : list Q := foldr insert_desc [] xs.

(** The list [heading_sizes]: the sizes of the grouped candidates other
    than the title size. *)
Definition heading_sizes_of (title_size : option Q)
    (heading_candidates : list candidate) : list Q :=
  filter (differs_from_title title_size) (map c_size heading_candidates).

(** The list [unique_sizes]. *)
Definition unique_sizes_of (title_size : option Q)
    (heading_candidates : list candidate) : list Q :=
  sorted_reverse (set_of (heading_sizes_of title_size heading_candidates)).

(** The dictionary display of [thresholds]; indexing the empty list in an
    [else] branch raises. *)
Definition make_thresholds (unique_sizes : list Q) : option thresholds :=
  h1 ← match unique_sizes with
       | u0 :: _ => Some u0
       | [] => Some 16%Q
       end;
  h2 ← match unique_sizes with
       | _ :: u1 :: _ => Some u1
       | _ => u0 ← head unique_sizes; Some (u0 * (85 # 100))%Q
       end;
  h3 ← match unique_sizes with
       | _ :: _ :: u2 :: _ => Some u2
       | _ => ul ← last unique_sizes; Some (ul * (7 # 10))%Q
       end;
  Some (Thresholds h1 h2 h3).

(** ** Deduplicator and Assembler *)

Record heading := Heading {
  h_level : level;
  h_text : str;
  h_page : nat
}.

Record result := Result {
  title : str;
  outline : list heading
}.

Abbreviation key := (str * nat)%type.

Definition key_of (c : candidate) : key := (lower (c_text c), c_page c).
Definition heading_key (h : heading) : key := (lower (h_text h), h_page h).

(** One iteration of the final loop; the state is [(outline, seen)]. *)
Definition assemble_step (thr : thresholds) (title_size : option Q)
    (st : list heading * gset key) (c : candidate)
    : list heading * gset key :=
  let '(outline, seen) := st in
  let k := key_of c in
  if bool_decide (k ∈ seen) then (outline, seen)
  else
    let seen := {[ k ]} ∪ seen in
    match detect_heading_level (c_size c) thr title_size with
    | Some lv => (outline ++ [Heading lv (c_text c) (c_page c)], seen)
    | None => (outline, seen)
    end.

Definition assemble (thr : thresholds) (title_size : option Q)
    (heading_candidates : list candidate) : list heading :=
  (fold_left (assemble_step thr title_size) heading_candidates ([], ∅)).1.

(** [os.path.basename(path)] on a POSIX path. *)
Definition basename (path : str) : str :=
  rev (take_while (fun c => negb (bool_decide (c = "/"%char))) (rev path)).

(** ** The pipeline *)

(** [extract_outline(pdf_path)], where [doc] is what [fitz.open(pdf_path)]
    gives; [doc[0]] raises on a document without pages. *)
Definition extract_outline (pdf_path : str) (doc : document) : option result :=
  first_page ← head doc;
  let '(title, title_size) := extract_title first_page in
  let title :=
    match title with
    | [] => replace (lit ".pdf") [] (basename pdf_path)
    | _ => title
    end in
  heading_candidates ← group_multiline_headings (collect_candidates doc);
  match heading_candidates with
  | [] => Some (Result title [])
  | _ =>
      match heading_sizes_of title_size heading_candidates with
      | [] => Some (Result title [])
      | _ =>
          thr ← make_thresholds (unique_sizes_of title_size heading_candidates);
          Some (Result title (assemble thr title_size heading_candidates))
      end
  end.

(** * Vocabulary of the properties *)

(** A text with a character that is not a space has a word. *)
Definition has_word (text : str) : bool :=
  existsb (fun c => negb (isspace c)) text.

(** The three tests of the grouper, as the specification words them. *)
Definition same_slot (current_group c : candidate) : Prop :=
  (c_size c == c_size current_group)%Q /\ c_page c = c_page current_group.

Definition continuation (ch : ascii) (lw fw : str) : Prop :=
  islower ch = true \/ (length lw <= 3)%nat \/ (length fw <= 3)%nat.

Definition broken_word (current_text lw fw : str) : Prop :=
  endswith_char "-" current_text = true
  \/ (length lw <= 2)%nat \/ (length fw <= 2)%nat.

(** The two results of a merge. *)
Definition tight_join (current_group c : candidate) : candidate :=
  Cand (c_size current_group)
       (rstrip_chars (lit "- ") (c_text current_group) ++ c_text c)
       (c_page current_group).

Definition spaced_join (current_group c : candidate) : candidate :=
  Cand (c_size current_group)
       (c_text current_group ++ lit " " ++ c_text c)
       (c_page current_group).

(** How the texts of a run of candidates end up in one group: each further
    text is appended either tightly, after the trailing hyphens and spaces
    of the group are removed, or after one space. *)
Inductive joined : list str -> str -> Prop :=
  | joined_one t : joined [t] t
  | joined_tight ts acc t :
      joined ts acc -> joined (ts ++ [t]) (rstrip_chars (lit "- ") acc ++ t)
  | joined_space ts acc t :
      joined ts acc -> joined (ts ++ [t]) (acc ++ lit " " ++ t).

(** [g] is the group made of the consecutive candidates [run]. *)
Definition groups_run (run : list candidate) (g : candidate) : Prop :=
  joined (map c_text run) (c_text g)
  /\ Forall (fun c => c_page c = c_page g /\ (c_size c == c_size g)%Q) run.

(** The candidates of a block and of a page, in reading order. *)
Definition block_candidates (page_num : nat) (b : block) : list candidate :=
  concat (map (line_candidates page_num) (get_list (block_lines b))).

Definition candidates_of_page (numbered : nat * page) : list candidate :=
  concat (map (block_candidates numbered.1) numbered.2).

(** What the collector guarantees of a candidate: a text of more than
    three characters that holds a word, and a size that is not negative
    (the running maximum of a line starts at 0). *)
Definition well_formed (c : candidate) : Prop :=
  (4 <= length (c_text c))%nat /\ has_word (c_text c) = true
  /\ (0 <= c_size c)%Q.

(** Descending order on sizes. *)
Definition Qdesc (a b : Q) : Prop := (b <= a)%Q.

(** The headings the final loop appends when it starts with [seen]. *)
Fixpoint emit (thr : thresholds) (title_size : option Q)
    (seen : gset key) (cands : list candidate) : list heading :=
  match cands with
  | [] => []
  | c :: rest =>
      if bool_decide (key_of c ∈ seen) then emit thr title_size seen rest
      else
        match detect_heading_level (c_size c) thr title_size with
        | Some lv =>
            Heading lv (c_text c) (c_page c)
            :: emit thr title_size ({[ key_of c ]} ∪ seen) rest
        | None => emit thr title_size ({[ key_of c ]} ∪ seen) rest
        end
  end.

Definition text_page_of_heading (h : heading) : str * nat :=
  (h_text h, h_page h).

Definition text_page_of_candidate (c : candidate) : str * nat :=
  (c_text c, c_page c).

(** The title that [extract_outline] reports and the title size it
    excludes. *)
Definition title_size_of (first_page : page) : option Q :=
  (extract_title first_page).2.

Definition title_of (pdf_path : str) (first_page : page) : str :=
  match (extract_title first_page).1 with
  | [] => replace (lit ".pdf") [] (basename pdf_path)
  | t => t
  end.

(** The reading of de-duplication against the outline: a candidate whose
    size gets a level is emitted whenever no heading emitted before it
    carries its pair. *)
Definition emitted_unless_in_outline (thr : thresholds)
    (title_size : option Q) (cands : list candidate) : Prop :=
  forall pre c post lv,
    cands = pre ++ c :: post ->
    detect_heading_level (c_size c) thr title_size = Some lv ->
    (forall h, h ∈ assemble thr title_size pre -> heading_key h <> key_of c) ->
    Heading lv (c_text c) (c_page c) ∈ assemble thr title_size cands.

(** ** Sample documents *)

Definition one_span_line (text : string) (size : Q) : line :=
  Line (Some [Span (lit text) size]).

(** A page whose title line is repeated below it in a smaller size, with
    the groups and the threshold table the pipeline derives from it. *)
Definition repeated_title_doc : document :=
  [ [ Block (Some 0%Q) (Some [one_span_line "Quarterly Results" 24]);
      Block (Some 100%Q) (Some [one_span_line "Quarterly Results" 16]) ] ].

Definition repeated_title_groups : list candidate :=
  [ Cand (round1 24) (lit "Quarterly Results") 1;
    Cand (round1 16) (lit "Quarterly Results") 1 ].

Definition repeated_title_thresholds : thresholds :=
  Thresholds (round1 16) (round1 16 * (85 # 100)) (round1 16 * (7 # 10)).

(** A two-page report: a two-line title, a heading repeated in two sizes,
    a heading broken by a hyphen, body text and a repeated heading. *)
Definition sample_doc : document :=
  [ [ Block (Some 0%Q) (Some [one_span_line "Deep Learning for" 24]);
      Block (Some 10%Q) (Some [one_span_line "Computer Vision" 24]);
      Block (Some 50%Q)
        (Some [ one_span_line "Summary of work" 20;
                one_span_line "Summary of work" 16;
                one_span_line "Intro-" 16;
                one_span_line "duction" 16 ]) ];
    [ Block (Some 0%Q)
        (Some [ one_span_line "Body text here today" 12;
                one_span_line "Conclusion" 14;
                one_span_line "Conclusion" 14 ]) ] ].

(** A page set in one size. *)
Definition single_size_doc : document :=
  [ [ Block (Some 0%Q)
        (Some [ one_span_line "Plain body text" 12;
                one_span_line "More words here" 12 ]) ] ].

(** ** Texts, titles and levels *)

(** The positions of a scan over a text, for the check that white space
    occurs only as single spaces between other characters. *)
Inductive ws_state := AtStart | AfterSpace | AfterChar.

(** [single_spaced_from st t]: read from position [st], the text [t] has
    no white space but single spaces, each between two other characters
    (none first after [AtStart], none last). *)
Fixpoint single_spaced_from (st : ws_state) (t : str) : bool :=
  match t with
  | [] => match st with AfterSpace => false | _ => true end
  | c :: tl =>
      if isspace c then
        match st with
        | AfterChar =>
            bool_decide (c = " "%char) && single_spaced_from AfterSpace tl
        | _ => false
        end
      else single_spaced_from AfterChar tl
  end.

(** A text without white space. *)
Definition no_space (w : str) : Prop := Forall (fun c => isspace c = false) w.

(** What [text.replace("\n", " ")] does to one character. *)
Definition newline_to_space (c : ascii) : ascii :=
  if bool_decide (c = LF) then " "%char else c.

(** A text that neither starts nor ends with white space. *)
Definition trimmed (w : str) : bool :=
  match w, last w with
  | c :: _, Some d => negb (isspace c) && negb (isspace d)
  | _, _ => false
  end.

(** The spans of a page, in the order of the blocks and lines. *)
Definition block_spans (b : block) : list span :=
  concat (map (fun l => get_list (line_spans l)) (get_list (block_lines b))).

Definition page_spans (blocks : page) : list span :=
  concat (map block_spans blocks).

(** The spans the first pass of [extract_title] keeps: clean text that is
    not noisy and has at least 5 characters. *)
Definition title_eligible (sp : span) : bool :=
  let text := clean_text (span_text sp) in
  negb (is_noisy text || (length text <? 5)%nat).

(** The texts a title line collects hold a word as soon as the line has
    a title span. *)
Definition line_texts_ok (acc : list str * bool) : Prop :=
  acc.2 = true -> exists x, x ∈ acc.1 /\ has_word x = true.

Definition block_has_word (st : title_state) : Prop :=
  exists x, x ∈ current_title_block st /\ has_word x = true.

(** The place of a level in the hierarchy: 1 for H1, 2 for H2, 3 for H3. *)
Definition level_rank (lv : level) : nat :=
  match lv with LvH1 => 1 | LvH2 => 2 | LvH3 => 3 end.

(** The level of the size at index [i] of [unique_sizes]. *)
Definition level_of_index (i : nat) : option level :=
  match i with
  | 0 => Some LvH1
  | 1 => Some LvH2
  | 2 => Some LvH3
  | _ => None
  end%nat.

(** Strictly descending order on sizes. *)
Definition Qdesc_strict (a b : Q) : Prop := (b < a)%Q.

(** * The utilities

    ** The rank-based detector of [src/utils/heading_detector.py] *)

(** A text element, the dictionary with the keys ["text"], ["size"],
    ["font"] and ["page"] that [extract_pdf_elements] builds. *)
Record element := Element {
  el_text : str;
  el_size : Q;
  el_font : str;
  el_page : nat
}.

(** The values of [size_to_level]. *)
Inductive rank_level := RkTitle | RkH1 | RkH2 | RkH3.

(** An entry of a heading list, the dictionary with ["text"] and
    ["page"]. *)
Record rank_entry := RankEntry {
  re_text : str;
  re_page : nat
}.

(** The dictionary [outline] of [detect_headings]. *)
Record rank_outline := RankOutline {
  ro_title : option str;
  ro_h1 : list rank_entry;
  ro_h2 : list rank_entry;
  ro_h3 : list rank_entry
}.

(** [sorted(elements, key=lambda x: -x["size"])]: a stable sort, so an
    element goes before the first one whose key is not smaller. *)
Fixpoint insert_by_neg_size (x : element) (l : list element) : list element :=
  match l with
  | [] => [x]
  | y :: tl =>
      if Qle_bool (- el_size x) (- el_size y) then x :: l
      else y :: insert_by_neg_size x tl
  end.

Definition sorted_elements (elements : list element) : list element :=
  foldr insert_by_neg_size [] elements.

(** The list [unique_sizes] of [detect_headings]. *)
Definition detect_unique_sizes (elements : list element) : list Q :=
  sorted_reverse (set_of (map el_size (sorted_elements elements))).

(** [d[key] = value] and [d.get(key)] on a dictionary with numbers as
    keys, kept as an association list. *)
Fixpoint rank_dict_set (k : Q) (v : rank_level) (d : list (Q * rank_level))
    : list (Q * rank_level) :=
  match d with
  | [] => [(k, v)]
  | (k', v') :: tl =>
      if Qeq_bool k' k then (k', v) :: tl else (k', v') :: rank_dict_set k v tl
  end.

Fixpoint rank_dict_get (k : Q) (d : list (Q * rank_level)) : option rank_level :=
  match d with
  | [] => None
  | (k', v) :: tl => if Qeq_bool k' k then Some v else rank_dict_get k tl
  end.

Definition size_to_level (unique_sizes : list Q) : list (Q * rank_level) :=
  match unique_sizes with
  | [] => []
  | u0 :: _ =>
      let d := rank_dict_set u0 RkTitle [] in
      let d := match unique_sizes !! 1%nat with
               | Some u1 => rank_dict_set u1 RkH1 d
               | None => d
               end in
      let d := match unique_sizes !! 2%nat with
               | Some u2 => rank_dict_set u2 RkH2 d
               | None => d
               end in
      match unique_sizes !! 3%nat with
      | Some u3 => rank_dict_set u3 RkH3 d
      | None => d
      end
  end.

(** [not outline["title"]]: no title yet, or an empty one. *)
Definition title_missing (t : option str) : bool :=
  match t with
  | None => true
  | Some s => bool_decide (s = [])
  end.

(** One iteration of the loop over [elements]. *)
Definition detect_step (d : list (Q * rank_level)) (o : rank_outline)
    (el : element) : rank_outline :=
  match rank_dict_get (el_size el) d with
  | Some RkTitle =>
      if title_missing (ro_title o)
      then RankOutline (Some (el_text el)) (ro_h1 o) (ro_h2 o) (ro_h3 o)
      else o
  | Some RkH1 =>
      RankOutline (ro_title o)
        (ro_h1 o ++ [RankEntry (el_text el) (el_page el)]) (ro_h2 o) (ro_h3 o)
  | Some RkH2 =>
      RankOutline (ro_title o) (ro_h1 o)
        (ro_h2 o ++ [RankEntry (el_text el) (el_page el)]) (ro_h3 o)
  | Some RkH3 =>
      RankOutline (ro_title o) (ro_h1 o) (ro_h2 o)
        (ro_h3 o ++ [RankEntry (el_text el) (el_page el)])
  | None => o
  end.

Definition detect_headings (elements : list element) : rank_outline :=
  let d := size_to_level (detect_unique_sizes elements) in
  fold_left (detect_step d) elements (RankOutline None [] [] []).

(** The elements of one size, as entries. *)
Definition entries_of_size (u : Q) (elements : list element) : list rank_entry :=
  map (fun el => RankEntry (el_text el) (el_page el))
      (List.filter (fun el => Qeq_bool (el_size el) u) elements).

(** The heading list of the size at index [k] of [unique_sizes]. *)
Definition entries_of_rank (k : nat) (elements : list element)
    : list rank_entry :=
  match detect_unique_sizes elements !! k with
  | Some u => entries_of_size u elements
  | None => []
  end.

(** The title the loop leaves for the texts of the largest size: the first
    text that is not empty, the empty text when all are, none without a
    text. *)
Definition title_from (texts : list str) : option str :=
  match texts with
  | [] => None
  | _ =>
      Some (default []
              (head (List.filter (fun t => negb (bool_decide (t = [])))
                                 texts)))
  end.

(** ** The element extractor of [src/utils/pdf_utils.py] *)

(** A span as [extract_pdf_elements] reads it: text, size and font. *)
Record raw_span := RawSpan {
  rs_text : str;
  rs_size : Q;
  rs_font : str
}.

(** A block; [rb_lines] is [None] when the key ["lines"] is absent. A
    line is the list under its key ["spans"]. *)
Record raw_block := RawBlock {
  rb_lines : option (list (list raw_span))
}.

(** The body of the innermost loop: a span whose stripped text is not
    empty adds one element. *)
Definition add_span_element (page_number : nat) (elements : list element)
    (sp : raw_span) : list element :=
  let text := strip (rs_text sp) in
  match text with
  | [] => elements
  | _ => elements ++ [Element text (rs_size sp) (rs_font sp) page_number]
  end.

Definition add_block_elements (page_number : nat) (elements : list element)
    (b : raw_block) : list element :=
  match rb_lines b with
  | None => elements
  | Some lines =>
      fold_left (fun elements line =>
                   fold_left (add_span_element page_number) line elements)
                lines elements
  end.

Definition extract_pdf_elements (doc : list (list raw_block)) : list element :=
  fold_left (fun elements numbered =>
               fold_left (add_block_elements numbered.1) numbered.2 elements)
            (enumerate_from 1 doc) [].

(** The elements of one page, block and span. *)
Definition span_elements (page_number : nat) (sp : raw_span) : list element :=
  add_span_element page_number [] sp.

Definition raw_block_elements (page_number : nat) (b : raw_block)
    : list element :=
  concat (map (fun line => concat (map (span_elements page_number) line))
              (default [] (rb_lines b))).

Definition raw_page_elements (numbered : nat * list raw_block) : list element :=
  concat (map (raw_block_elements numbered.1) numbered.2).

(** What [size_to_level.get(s)] gives on the first four entries of
    [unique_sizes]. *)
Definition rank_lookup (us : list Q) (s : Q) : option rank_level :=
  match us with
  | [] => None
  | u0 :: r0 =>
      if Qeq_bool u0 s then Some RkTitle else
      match r0 with
      | [] => None
      | u1 :: r1 =>
          if Qeq_bool u1 s then Some RkH1 else
          match r1 with
          | [] => None
          | u2 :: r2 =>
              if Qeq_bool u2 s then Some RkH2 else
              match r2 with
              | [] => None
              | u3 :: _ => if Qeq_bool u3 s then Some RkH3 else None
              end
          end
      end
  end.

(** The elements that the loop sends to one list. *)
Definition sent_to (d : list (Q * rank_level)) (lv : rank_level)
    (el : element) : bool :=
  match rank_dict_get (el_size el) d, lv with
  | Some RkTitle, RkTitle | Some RkH1, RkH1
  | Some RkH2, RkH2 | Some RkH3, RkH3 => true
  | _, _ => false
  end.

Definition entry_of (el : element) : rank_entry :=
  RankEntry (el_text el) (el_page el).

(** The title after the texts of the elements sent to the title. *)
Definition title_after (t : option str) (texts : list str) : option str :=
  fold_left (fun t x => if title_missing t then Some x else t) texts t.

(** * Vocabulary of the title lines and of the outline texts *)

(** The text a line gives to the title, when it has a span of the title
    size that is not noisy. *)
Definition title_line_text (max_size : Q) (l : line) : option str :=
  let '(line_texts, line_has_title) :=
    fold_left (title_line_span max_size) (get_list (line_spans l))
              ([], false) in
  if line_has_title then Some (join (lit " ") line_texts) else None.

(** The texts of the title lines of some lines and of a page, in order. *)
Definition title_texts (max_size : Q) (lines : list line) : list str :=
  omap (title_line_text max_size) lines.

Definition page_title_texts (max_size : Q) (blocks : page) : list str :=
  concat (map (fun b => title_texts max_size (get_list (block_lines b)))
              blocks).

(** The title blocks closed so far and the open one. *)
Definition title_blocks (st : title_state) : list str :=
  match current_title_block st with
  | [] => title_parts st
  | _ => title_parts st ++ [join (lit " ") (current_title_block st)]
  end.

(** The state of the second pass holds the same text as the title lines
    [texts] read so far. *)
Definition holds_texts (st : title_state) (texts : list str) : Prop :=
  join (lit " ") (title_blocks st) = join (lit " ") texts
  /\ (title_blocks st = [] <-> texts = []).

(** The same page with other block positions. *)
Definition with_positions (pos : block -> option Q) (blocks : page) : page :=
  map (fun b => Block (pos b) (block_lines b)) blocks.

(** A text in white-space normal form: its only white space is single
    spaces between words. *)
Definition whitespace_normal (t : str) : Prop :=
  join (lit " ") (split t) = t /\ strip t = t.

(** * Properties *)

(** ** Strings *)

Section scan.
Variable try_match : str -> option (str * str).

(** A match consumes at least one character. *)
Hypothesis match_shorter : forall s repl rest,
  try_match s = Some (repl, rest) -> (length rest < length s)%nat.

(** More fuel than the length of the text changes nothing. *)
Lemma sub_from_enough_fuel n s :
  (length s <= n)%nat -> sub_from try_match n s = sub try_match s.
Proof.
  unfold sub. remember (length s) as k eqn:Hk.
  revert n s Hk. induction (lt_wf k) as [k _ IH].
  intros n s -> Hn. destruct s as [|c tl]; [by destruct n|].
  destruct n as [|n]; [simpl in Hn; lia|]. cbn [length sub_from].
  destruct (try_match (c :: tl)) as [[repl rest]|] eqn:Hm.
  - apply match_shorter in Hm. cbn [length] in Hm, Hn.
    rewrite (IH (length rest)) by (simpl; lia).
    by rewrite (IH (length rest) ltac:(simpl; lia) (length tl) rest) by lia.
  - cbn [length] in Hn. by rewrite (IH (length tl)) by (simpl; lia).
Qed.

(** A scan whose replacements are the matched text changes nothing. *)
Lemma sub_from_identity n s :
  (forall t repl rest, try_match t = Some (repl, rest) -> repl ++ rest = t) ->
  sub_from try_match n s = s.
Proof.
  intros Hid. remember (length s) as k eqn:Hk.
  revert n s Hk. induction (lt_wf k) as [k _ IH].
  intros n s ->. destruct s as [|c tl]; [by destruct n|].
  destruct n as [|n]; [done|]. cbn [sub_from].
  destruct (try_match (c :: tl)) as [[repl rest]|] eqn:Hm.
  - pose proof (match_shorter _ _ _ Hm) as Hlt.
    rewrite (IH (length rest) Hlt n rest eq_refl). by apply Hid.
  - f_equal. apply (IH (length tl)); [simpl; lia|done].
Qed.
End scan.

Lemma take_drop_while p s : take_while p s ++ drop_while p s = s.
Proof. induction s as [|c tl IH]; [done|]. simpl. destruct (p c); [by rewrite <-IH at 3|done]. Qed.

Lemma drop_while_suffix p s : exists pre, s = pre ++ drop_while p s.
Proof. exists (take_while p s). by rewrite take_drop_while. Qed.

Lemma drop_while_head p s c tl : drop_while p s = c :: tl -> p c = false.
Proof.
  induction s as [|d s IH]; [done|]. simpl.
  destruct (p d) eqn:Hd; [done|]. intros [= -> _]. done.
Qed.

Lemma match_spaces_word_split s ws g rest :
  match_spaces_word s = Some (ws, g, rest) ->
  s = ws ++ g :: rest /\ ws <> [] /\ Forall (fun c => isspace c = true) ws
  /\ isword g = true.
Proof.
  unfold match_spaces_word. intros H.
  pose proof (take_drop_while isspace s) as Hs.
  destruct (take_while isspace s) as [|w ws'] eqn:Hw; [done|].
  destruct (drop_while isspace s) as [|g' rest'] eqn:Hd; [done|].
  destruct (isword g') eqn:Hg; [|done]. injection H as <- <- <-.
  repeat split; [done|done| |done].
  rewrite <-Hw. clear. induction s as [|c tl IH]; [constructor|].
  simpl. destruct (isspace c) eqn:Hc; [by constructor|constructor].
Qed.

Lemma match_space_break_shorter s m :
  match_space_break s = Some m ->
  group0 m ++ match_rest m = s /\ length (group1 m) = 1%nat
  /\ length (group2 m) = 1%nat /\ (length (match_rest m) < length s)%nat.
Proof.
  destruct s as [|g1 tl]; [done|]. simpl.
  destruct (isword g1); [|done].
  destruct (match_spaces_word tl) as [[[ws g2] rest]|] eqn:Hm; [|done].
  intros [= <-]. apply match_spaces_word_split in Hm as (-> & _ & _ & _).
  simpl. rewrite <-!app_assoc. repeat split; try done.
  rewrite length_app. simpl. lia.
Qed.

Lemma match_hyphen_break_shorter s m :
  match_hyphen_break s = Some m ->
  length (group1 m) = 1%nat /\ length (group2 m) = 1%nat
  /\ (length (match_rest m) < length s)%nat.
Proof.
  destruct s as [|g1 [|h tl]]; [done|done|]. simpl.
  destruct (decide (h = "-"%char)) as [->|Hh].
  2:{ by destruct h as [[] [] [] [] [] [] [] []]. }
  destruct (isword g1); [|done].
  destruct (match_spaces_word tl) as [[[ws g2] rest]|] eqn:Hm; [|done].
  intros [= <-]. apply match_spaces_word_split in Hm as (-> & _ & _ & _).
  simpl. repeat split; try done. rewrite length_app. simpl. lia.
Qed.

(** The fuel of [re_sub] suffices for both patterns of [clean_text]: more
    of it gives the same text. *)
Lemma re_sub_enough_fuel pattern repl text n :
  (forall s m, pattern s = Some m ->
     (length (match_rest m) < length s)%nat) ->
  (length text <= n)%nat ->
  sub_from (fun t => match pattern t with
                     | Some m => Some (repl m, match_rest m)
                     | None => None
                     end) n text
  = re_sub pattern repl text.
Proof.
  intros Hshort Hn. unfold re_sub. apply sub_from_enough_fuel; [|done].
  intros s r rest H. destruct (pattern s) as [m|] eqn:Hm; [|done].
  injection H as _ <-. by apply Hshort.
Qed.

Lemma hyphen_repair_enough_fuel text n :
  (length text <= n)%nat ->
  sub_from (fun t => match match_hyphen_break t with
                     | Some m => Some (repl_groups m, match_rest m)
                     | None => None
                     end) n text
  = re_sub match_hyphen_break repl_groups text.
Proof.
  apply re_sub_enough_fuel. intros s m Hm.
  by apply match_hyphen_break_shorter in Hm as (_ & _ & ?).
Qed.

(** The third step of [clean_text] never changes its argument: both
    groups of [(\w)\s+(\w)] hold one character, so the test of the
    replacement function on their lengths fails at every match. *)
Lemma space_break_repair_is_identity text :
  re_sub match_space_break repl_long_groups text = text.
Proof.
  unfold re_sub, sub. apply sub_from_identity.
  - intros s repl rest H.
    destruct (match_space_break s) as [m|] eqn:Hm; [|done].
    injection H as <- <-. by apply match_space_break_shorter in Hm as (_&_&_&?).
  - intros s repl rest H.
    destruct (match_space_break s) as [m|] eqn:Hm; [|done].
    injection H as <- <-.
    apply match_space_break_shorter in Hm as (Hs & H1 & H2 & _).
    unfold repl_long_groups. by rewrite H1, H2.
Qed.

(** The result of [strip] neither starts nor ends with a space. *)
Lemma strip_head s c : head (strip s) = Some c -> isspace c = false.
Proof.
  unfold strip, rstrip_by, lstrip_by.
  destruct (drop_while_suffix isspace (rev (drop_while isspace s))) as [pre Hp].
  apply (f_equal (@rev _)) in Hp. rewrite rev_involutive, rev_app_distr in Hp.
  destruct (rev (drop_while isspace (rev (drop_while isspace s)))) as [|d u];
    [done|].
  simpl. intros [= ->]. simpl in Hp. by apply drop_while_head in Hp.
Qed.

Lemma has_word_app_r s t : has_word t = true -> has_word (s ++ t) = true.
Proof. unfold has_word. rewrite existsb_app. intros ->. by rewrite orb_true_r. Qed.

Lemma has_word_of_head s c : head s = Some c -> isspace c = false -> has_word s = true.
Proof. destruct s; [done|]. simpl. by intros [= ->] ->. Qed.

Lemma split_go_nonempty w s :
  w <> [] \/ has_word s = true -> split_go w s <> [].
Proof.
  revert w. induction s as [|c tl IH]; intros w [Hw|Hs]; simpl.
  - by destruct w.
  - done.
  - destruct (isspace c); [by destruct w|]. apply IH. left. by destruct w.
  - simpl in Hs. destruct (isspace c); simpl in Hs.
    + destruct w; [apply IH; by right|done].
    + apply IH. left. by destruct w.
Qed.

Lemma has_word_first_word s : has_word s = true -> is_Some (first_word s).
Proof.
  intros H. unfold first_word, split.
  pose proof (split_go_nonempty [] s (or_intror H)).
  destruct (split_go [] s); [done|by eexists].
Qed.

Lemma has_word_last_word s : has_word s = true -> is_Some (last_word s).
Proof.
  intros H. unfold last_word, split.
  pose proof (split_go_nonempty [] s (or_intror H)) as Hn.
  destruct (split_go [] s) as [|w l] using rev_ind; [done|].
  rewrite last_snoc. by eexists.
Qed.

Lemma has_word_head s : has_word s = true -> is_Some (head s).
Proof. destruct s; [done|by eexists]. Qed.

Lemma clean_text_has_word s : clean_text s <> [] -> has_word (clean_text s) = true.
Proof.
  unfold clean_text. intros H.
  destruct (strip _) as [|c tl] eqn:Hs; [done|].
  apply (has_word_of_head _ c); [done|].
  eapply strip_head. by rewrite Hs.
Qed.

(** ** MultilineGrouper *)

Lemma should_merge_spec cur c ch lw fw :
  head (c_text c) = Some ch ->
  last_word (c_text cur) = Some lw ->
  first_word (c_text c) = Some fw ->
  exists b, should_merge cur c = Some b
    /\ (b = true <-> same_slot cur c /\ continuation ch lw fw).
Proof.
  intros Hch Hlw Hfw. unfold should_merge, same_slot, continuation.
  rewrite Hch, Hlw, Hfw. simpl.
  destruct (Qeq_bool (c_size c) (c_size cur)) eqn:Hs; simpl.
  2:{ exists false. split; [done|]. split; [done|].
      intros [[Hq _] _]. apply Qeq_bool_iff in Hq. congruence. }
  apply Qeq_bool_iff in Hs.
  destruct (Nat.eqb_spec (c_page c) (c_page cur)) as [Hp|Hp]; simpl.
  2:{ exists false. split; [done|]. split; [done|]. by intros [[_ ?] _]. }
  destruct (islower ch) eqn:Hl.
  { exists true. split; [done|]. split; [|done]. intros _. tauto. }
  destruct (Nat.leb_spec (length lw) 3).
  { exists true. split; [done|]. split; [|done]. intros _. tauto. }
  eexists. split; [done|].
  destruct (Nat.leb_spec (length fw) 3); split; try done; try tauto.
  intros [_ [?|[?|?]]]; [done|lia|lia].
Qed.

Lemma join_without_space_spec cur c lw fw :
  last_word (c_text cur) = Some lw ->
  first_word (c_text c) = Some fw ->
  exists b, join_without_space cur c = Some b
    /\ (b = true <-> broken_word (c_text cur) lw fw).
Proof.
  intros Hlw Hfw. unfold join_without_space, broken_word.
  rewrite Hlw, Hfw. simpl.
  destruct (endswith_char "-" (c_text cur)).
  { exists true. split; [done|]. split; [|done]. intros _. tauto. }
  destruct (Nat.leb_spec (length lw) 2).
  { exists true. split; [done|]. split; [|done]. intros _. tauto. }
  eexists. split; [done|].
  destruct (Nat.leb_spec (length fw) 2); split; try done; try tauto.
  intros [?|[?|?]]; [done|lia|lia].
Qed.

Lemma groups_run_single c : groups_run [c] c.
Proof. split; [constructor|]. constructor; [done|constructor]. Qed.

Lemma should_merge_same_slot cur c :
  should_merge cur c = Some true -> same_slot cur c.
Proof.
  unfold should_merge, same_slot.
  destruct (Qeq_bool (c_size c) (c_size cur)) eqn:Hs; [|done].
  destruct (Nat.eqb_spec (c_page c) (c_page cur)); [|done].
  intros _. by apply Qeq_bool_iff in Hs.
Qed.

Lemma group_step_cases grouped cur c st :
  group_step (grouped, cur) c = Some st ->
  same_slot cur c
    /\ (st = (grouped, tight_join cur c) \/ st = (grouped, spaced_join cur c))
  \/ st = (grouped ++ [cur], c).
Proof.
  unfold group_step.
  destruct (should_merge cur c) as [[|]|] eqn:Hm; simpl; [| |done].
  - apply should_merge_same_slot in Hm.
    destruct (join_without_space cur c) as [[|]|]; simpl; [| |done];
      intros [= <-]; left; split; auto.
  - intros [= <-]. by right.
Qed.

Lemma group_step_total grouped cur c :
  has_word (c_text cur) = true -> has_word (c_text c) = true ->
  is_Some (group_step (grouped, cur) c).
Proof.
  intros Hcur Hc.
  destruct (has_word_head _ Hc) as [ch Hch].
  destruct (has_word_last_word _ Hcur) as [lw Hlw].
  destruct (has_word_first_word _ Hc) as [fw Hfw].
  destruct (should_merge_spec cur c ch lw fw Hch Hlw Hfw) as (b & Hb & _).
  destruct (join_without_space_spec cur c lw fw Hlw Hfw) as (b' & Hb' & _).
  unfold group_step. rewrite Hb. simpl. destruct b; [|by eexists].
  rewrite Hb'. simpl. destruct b'; by eexists.
Qed.

Lemma for_each_group_step_total cs grouped cur :
  has_word (c_text cur) = true ->
  Forall (fun c => has_word (c_text c) = true) cs ->
  is_Some (for_each group_step cs (grouped, cur)).
Proof.
  intros Hcur Hcs. revert grouped cur Hcur.
  induction Hcs as [|c cs Hc _ IH]; intros grouped cur Hcur; [by eexists|].
  cbn [for_each]. destruct (group_step_total grouped cur c Hcur Hc) as [st Hst].
  rewrite Hst. cbn [mbind option_bind].
  apply group_step_cases in Hst as [[_ [->| ->]]| ->]; apply IH; simpl;
    try done; by repeat apply has_word_app_r.
Qed.

(** On texts that each hold a word the grouper raises nothing. *)
Lemma group_multiline_headings_total cands :
  Forall (fun c => has_word (c_text c) = true) cands ->
  is_Some (group_multiline_headings cands).
Proof.
  destruct cands as [|c cs]; [by eexists|].
  intros H. apply Forall_cons in H as [Hc Hcs]. simpl.
  destruct (for_each_group_step_total cs [] c Hc Hcs) as [[g cur] ->].
  by eexists.
Qed.

Lemma for_each_group_step_runs cs grouped cur grouped' cur' runs run :
  for_each group_step cs (grouped, cur) = Some (grouped', cur') ->
  Forall2 groups_run runs grouped -> groups_run run cur ->
  exists runs' run',
    Forall2 groups_run runs' grouped' /\ groups_run run' cur'
    /\ concat runs' ++ run' = concat runs ++ run ++ cs.
Proof.
  revert grouped cur runs run.
  induction cs as [|c cs IH]; intros grouped cur runs run.
  { intros [= <- <-] Hruns Hrun. exists runs, run. by rewrite app_nil_r. }
  cbn [for_each]. destruct (group_step (grouped, cur) c) as [st|] eqn:Hst; [|done].
  cbn [mbind option_bind]. intros Hfold Hruns [Hj Hrun].
  apply group_step_cases in Hst as [[[Hsz Hpg] Hst]| ->].
  - assert (Hnew : forall g, c_size g = c_size cur -> c_page g = c_page cur ->
        joined (map c_text (run ++ [c])) (c_text g) -> groups_run (run ++ [c]) g).
    { intros g Hgs Hgp Hgj. split; [done|]. rewrite Hgs, Hgp.
      apply Forall_app. split; [done|]. by constructor. }
    destruct Hst as [-> | ->].
    + destruct (IH _ _ runs (run ++ [c]) Hfold Hruns) as (r' & u' & ? & ? & Hc).
      { apply Hnew; [done|done|]. rewrite map_app. by constructor. }
      exists r', u'. by rewrite Hc, <-!app_assoc.
    + destruct (IH _ _ runs (run ++ [c]) Hfold Hruns) as (r' & u' & ? & ? & Hc).
      { apply Hnew; [done|done|]. rewrite map_app. by constructor. }
      exists r', u'. by rewrite Hc, <-!app_assoc.
  - destruct (IH _ _ (runs ++ [run]) [c] Hfold) as (r' & u' & ? & ? & Hc).
    { apply Forall2_app; [done|]. by constructor. }
    { apply groups_run_single. }
    exists r', u'. rewrite Hc, concat_app. simpl. by rewrite app_nil_r, <-!app_assoc.
Qed.

(** The grouper cuts the candidate sequence into consecutive runs and
    turns every run into one group, in the same order. *)
Lemma group_multiline_headings_runs cands gs :
  group_multiline_headings cands = Some gs ->
  exists runs, concat runs = cands /\ Forall2 groups_run runs gs.
Proof.
  destruct cands as [|c cs]; simpl.
  { intros [= <-]. exists []. split; [done|constructor]. }
  destruct (for_each group_step cs ([], c)) as [[g cur]|] eqn:Hf; [|done].
  simpl. intros [= <-].
  destruct (for_each_group_step_runs _ _ _ _ _ [] [c] Hf) as (r & u & Hr & Hu & Hc).
  { constructor. } { apply groups_run_single. }
  exists (r ++ [u]). split.
  - rewrite concat_app. simpl. by rewrite app_nil_r, Hc.
  - apply Forall2_app; [done|]. by constructor.
Qed.

(** C7. One step of [group_multiline_headings], for a candidate whose text
    starts with [ch] and has first word [fw] and a current group whose last
    word is [lw]: the candidate is merged into the group iff it has the
    same size and page and the continuation test holds; the merged text is
    joined tightly, after the trailing hyphens and spaces of the group are
    removed, iff the broken-word test holds, and with one space otherwise;
    without a merge the group is closed and the candidate opens the next
    one. *)
Theorem group_step_merge_rule grouped cur c ch lw fw :
  head (c_text c) = Some ch ->
  last_word (c_text cur) = Some lw ->
  first_word (c_text c) = Some fw ->
  (same_slot cur c /\ continuation ch lw fw ->
   broken_word (c_text cur) lw fw ->
   group_step (grouped, cur) c = Some (grouped, tight_join cur c))
  /\ (same_slot cur c /\ continuation ch lw fw ->
      ~ broken_word (c_text cur) lw fw ->
      group_step (grouped, cur) c = Some (grouped, spaced_join cur c))
  /\ (~ (same_slot cur c /\ continuation ch lw fw) ->
      group_step (grouped, cur) c = Some (grouped ++ [cur], c)).
Proof.
  intros Hch Hlw Hfw.
  destruct (should_merge_spec cur c ch lw fw Hch Hlw Hfw) as (b & Hb & Hbi).
  destruct (join_without_space_spec cur c lw fw Hlw Hfw) as (t & Ht & Hti).
  unfold group_step. rewrite Hb. cbn [mbind option_bind].
  repeat split.
  - intros Hm Hbw. apply Hbi in Hm as ->. rewrite Ht. cbn [mbind option_bind].
    by apply Hti in Hbw as ->.
  - intros Hm Hbw. apply Hbi in Hm as ->. rewrite Ht. cbn [mbind option_bind].
    destruct t; [|done]. by destruct Hbw; apply Hti.
  - intros Hm. destruct b; [|done]. by destruct Hm; apply Hbi.
Qed.

Lemma group_step_merge_rule_witness :
  group_step ([], Cand 16 (lit "Intro-") 2) (Cand 16 (lit "duction") 2)
  = Some ([], Cand 16 (lit "Introduction") 2).
Proof.
  apply (proj1 (group_step_merge_rule [] (Cand 16 (lit "Intro-") 2)
                  (Cand 16 (lit "duction") 2) "d" (lit "Intro-")
                  (lit "duction") eq_refl eq_refl eq_refl)).
  - split; [split; reflexivity|left; reflexivity].
  - left; reflexivity.
Defined.

(** ** CandidateCollector *)

Lemma fold_left_app_concat {A B} (f : A -> list B) l acc :
  fold_left (fun acc x => acc ++ f x) l acc = acc ++ concat (map f l).
Proof.
  revert acc. induction l as [|x l IH]; intros acc; simpl.
  - by rewrite app_nil_r.
  - by rewrite IH, app_assoc.
Qed.

Lemma page_candidates_flat acc numbered :
  page_candidates acc numbered = acc ++ candidates_of_page numbered.
Proof.
  unfold page_candidates, candidates_of_page.
  destruct numbered as [n blocks]. simpl. revert acc.
  induction blocks as [|b bs IH]; intros acc; simpl.
  - by rewrite app_nil_r.
  - rewrite fold_left_app_concat, IH. by rewrite app_assoc.
Qed.

(** The collector lists the candidates page by page, block by block and
    line by line. *)
Lemma collect_candidates_flat doc :
  collect_candidates doc = concat (map candidates_of_page (enumerate_from 1 doc)).
Proof.
  unfold collect_candidates. generalize (enumerate_from 1 doc). intros l.
  rewrite <-(app_nil_l (concat _)). generalize (@nil candidate).
  induction l as [|np l IH]; intros acc; simpl.
  - by rewrite app_nil_r.
  - by rewrite page_candidates_flat, IH, app_assoc.
Qed.

Lemma line_span_nonneg spans acc :
  (0 <= acc.2)%Q -> (0 <= (fold_left line_span spans acc).2)%Q.
Proof.
  revert acc. induction spans as [|sp spans IH]; intros acc Hacc; [done|].
  simpl. apply IH. unfold line_span.
  destruct (is_noisy _); [done|]. simpl. unfold Qgt_bool.
  destruct (Qle_bool (round1 (span_size sp)) acc.2) eqn:Hle; simpl; [done|].
  destruct (Qlt_le_dec acc.2 (round1 (span_size sp))) as [Hlt|Hge].
  - apply Qlt_le_weak in Hlt. by eapply Qle_trans.
  - apply Qle_bool_iff in Hge. congruence.
Qed.

Lemma line_candidates_spec page_num l :
  Forall (fun c => well_formed c /\ c_page c = page_num)
         (line_candidates page_num l).
Proof.
  unfold line_candidates.
  pose proof (line_span_nonneg (get_list (line_spans l)) ([], 0%Q)) as Hn.
  destruct (fold_left line_span _ _) as [line_text max_size_in_line].
  simpl in Hn. specialize (Hn (Qle_refl 0)).
  pose proof (clean_text_has_word (join (lit " ") line_text)) as Hw.
  destruct (clean_text (join (lit " ") line_text)) as [|ch t] eqn:Ht;
    [constructor|].
  rewrite bool_decide_eq_false_2 by done. cbn [negb andb].
  destruct (Nat.ltb_spec 3 (length (ch :: t))); [|constructor].
  destruct (is_noisy (ch :: t)); cbn [negb andb]; constructor; [|constructor].
  repeat split; cbn [c_size c_text c_page]; [lia|by apply Hw|done].
Qed.

Lemma candidates_of_page_spec numbered :
  Forall (fun c => well_formed c /\ c_page c = numbered.1)
         (candidates_of_page numbered).
Proof.
  unfold candidates_of_page, block_candidates.
  apply Forall_concat, Forall_map, Forall_forall. intros b _.
  apply Forall_concat, Forall_map, Forall_forall. intros l _.
  apply line_candidates_spec.
Qed.

Lemma collect_candidates_well_formed doc :
  Forall well_formed (collect_candidates doc).
Proof.
  rewrite collect_candidates_flat.
  apply Forall_concat, Forall_map, Forall_forall. intros np _.
  eapply Forall_impl; [apply candidates_of_page_spec|]. by intros c [? _].
Qed.

Lemma constant_pages_sorted (k : nat) (l : list nat) :
  Forall (fun n => n = k) l -> StronglySorted le l.
Proof.
  induction 1 as [|n l -> Hl IH]; constructor; [done|].
  eapply Forall_impl; [exact Hl|]. intros ? ->. lia.
Qed.

Lemma enumerated_pages_sorted k (doc : document) :
  let cs := concat (map candidates_of_page (enumerate_from k doc)) in
  Forall (fun c => (k <= c_page c)%nat) cs
  /\ StronglySorted le (map c_page cs).
Proof.
  revert k. induction doc as [|p ps IH]; intros k; simpl.
  { split; constructor. }
  change (zip (seq (S k) (length ps)) ps) with (enumerate_from (S k) ps).
  destruct (IH (S k)) as [Hge Hsorted].
  pose proof (candidates_of_page_spec (k, p)) as Hp. simpl in Hp.
  split.
  - apply Forall_app. split.
    + eapply Forall_impl; [exact Hp|]. intros c [_ ->]. lia.
    + eapply Forall_impl; [exact Hge|]. intros c ?. simpl in *. lia.
  - rewrite map_app. apply StronglySorted_app_2; [|
      apply (constant_pages_sorted k), Forall_map;
      eapply Forall_impl; [exact Hp|]; by intros c [_ ->] | done].
    intros x1 x2 [c1 [<- H1]]%list_elem_of_In%in_map_iff
                 [c2 [<- H2]]%list_elem_of_In%in_map_iff.
    rewrite Forall_forall in Hp, Hge.
    apply list_elem_of_In in H1, H2.
    destruct (Hp c1 H1) as [_ ->]. specialize (Hge c2 H2). simpl in Hge. lia.
Qed.

(** The candidates come out page by page. *)
Lemma collect_candidates_pages_sorted doc :
  StronglySorted le (map c_page (collect_candidates doc)).
Proof. rewrite collect_candidates_flat. apply enumerated_pages_sorted. Qed.

(** ** Groups and their runs *)

Lemma joined_last ts t :
  joined ts t -> exists tl pre, last ts = Some tl /\ t = pre ++ tl.
Proof.
  induction 1 as [t|ts acc t _ _|ts acc t _ _].
  - by exists t, [].
  - exists t, (rstrip_chars (lit "- ") acc). by rewrite last_snoc.
  - exists t, (acc ++ lit " "). by rewrite last_snoc, <-app_assoc.
Qed.

Lemma groups_run_nonempty run g : groups_run run g -> run <> [].
Proof.
  intros [Hj _] ->. apply joined_last in Hj as (? & ? & Hl & _). done.
Qed.

Lemma groups_run_well_formed run g :
  groups_run run g -> Forall well_formed run -> well_formed g.
Proof.
  intros [Hj Hrun] Hwf.
  destruct (joined_last _ _ Hj) as (tl & pre & Hl & Ht).
  destruct run as [|c0 run'] using rev_ind; [done|].
  rewrite map_app in Hl. cbn [map] in Hl. rewrite last_snoc in Hl.
  injection Hl as <-.
  apply Forall_app in Hwf as [_ [(Hlen & Hw & Hsz) _]%Forall_cons].
  apply Forall_app in Hrun as [_ [[_ Heq] _]%Forall_cons].
  repeat split.
  - rewrite Ht, length_app. lia.
  - rewrite Ht. by apply has_word_app_r.
  - by rewrite <-Heq.
Qed.

Lemma grouped_well_formed runs gs :
  Forall2 groups_run runs gs -> Forall well_formed (concat runs) ->
  Forall well_formed gs.
Proof.
  induction 1 as [|run g runs gs Hg _ IH]; simpl; [constructor|].
  intros [Hrun Hrest]%Forall_app. constructor; [|by apply IH].
  by eapply groups_run_well_formed.
Qed.

Lemma grouped_page_in_run runs gs g :
  Forall2 groups_run runs gs -> g ∈ gs ->
  exists c, c ∈ concat runs /\ c_page c = c_page g.
Proof.
  induction 1 as [|run g' runs gs Hg _ IH]; [by intros ?%elem_of_nil|].
  intros [->|Hin]%elem_of_cons; simpl.
  - pose proof (groups_run_nonempty _ _ Hg) as Hne. destruct Hg as [_ Hrun].
    destruct run as [|c run]; [done|].
    apply Forall_cons in Hrun as [[Hp _] _].
    exists c. split; [apply elem_of_app; left; constructor|done].
  - destruct (IH Hin) as (c & Hc & Hp). exists c.
    split; [apply elem_of_app; by right|done].
Qed.

Lemma grouped_pages_sorted runs gs :
  Forall2 groups_run runs gs ->
  StronglySorted le (map c_page (concat runs)) ->
  StronglySorted le (map c_page gs).
Proof.
  induction 1 as [|run g runs gs Hg Hrest IH]; simpl; [constructor|].
  rewrite map_app. intros Hs. apply StronglySorted_app in Hs as (Hle & _ & Hs).
  constructor; [by apply IH|].
  apply Forall_map, Forall_forall. intros g' Hg'.
  destruct (grouped_page_in_run _ _ g' Hrest Hg') as (c & Hc & <-).
  pose proof (groups_run_nonempty _ _ Hg) as Hne. destruct Hg as [_ Hrun].
  destruct run as [|c0 run]; [done|].
  apply Forall_cons in Hrun as [[<- _] _].
  apply Hle; apply list_elem_of_In, in_map, list_elem_of_In;
    [constructor|done].
Qed.

(** ** LevelThresholder *)

Lemma Qle_bool_false x y : Qle_bool x y = false -> (y <= x)%Q.
Proof.
  intros H. destruct (Qlt_le_dec y x) as [Hlt|Hle]; [by apply Qlt_le_weak|].
  apply Qle_bool_iff in Hle. congruence.
Qed.

Lemma insert_desc_sorted x l : Sorted Qdesc l -> Sorted Qdesc (insert_desc x l).
Proof.
  induction 1 as [|y l Hl IH Hhd]; simpl; [by repeat constructor|].
  destruct (Qle_bool y x) eqn:Hyx.
  - apply Qle_bool_iff in Hyx. by repeat constructor.
  - apply Qle_bool_false in Hyx. constructor; [done|].
    destruct l as [|z l]; simpl; [by constructor|].
    destruct (Qle_bool z x); constructor; [done|]. by inversion Hhd.
Qed.

Lemma sorted_reverse_sorted xs : Sorted Qdesc (sorted_reverse xs).
Proof.
  induction xs as [|x xs IH]; simpl; [constructor|by apply insert_desc_sorted].
Qed.

Lemma insert_desc_Forall (P : Q -> Prop) x l :
  P x -> Forall P l -> Forall P (insert_desc x l).
Proof.
  intros Hx. induction 1 as [|y l Hy Hl IH]; simpl; [by repeat constructor|].
  destruct (Qle_bool y x); by repeat constructor.
Qed.

Lemma sorted_reverse_Forall (P : Q -> Prop) xs :
  Forall P xs -> Forall P (sorted_reverse xs).
Proof.
  induction 1; simpl; [constructor|by apply insert_desc_Forall].
Qed.

Lemma sorted_reverse_nonempty xs : xs <> [] -> sorted_reverse xs <> [].
Proof.
  destruct xs as [|x xs]; [done|]. intros _. simpl.
  destruct (sorted_reverse xs) as [|y l]; simpl; [done|].
  by destruct (Qle_bool y x).
Qed.

Lemma set_of_Forall (P : Q -> Prop) xs : Forall P xs -> Forall P (set_of xs).
Proof.
  induction 1 as [|x xs Hx _ IH]; simpl; [constructor|].
  constructor; [done|]. apply Forall_forall. intros y [_ Hy]%list_elem_of_filter.
  rewrite Forall_forall in IH. by apply IH.
Qed.

Lemma set_of_nonempty xs : xs <> [] -> set_of xs <> [].
Proof. by destruct xs. Qed.

(** On a descending list of sizes that are not negative, the threshold
    table exists and is itself descending. *)
Lemma make_thresholds_ordered us :
  us <> [] -> Sorted Qdesc us -> Forall (Qle 0) us ->
  exists thr, make_thresholds us = Some thr
    /\ (thr_H2 thr <= thr_H1 thr)%Q /\ (thr_H3 thr <= thr_H2 thr)%Q.
Proof.
  intros Hne Hs Hpos. destruct us as [|u0 [|u1 [|u2 us]]]; [done|..].
  - eexists. split; [reflexivity|]. simpl.
    apply Forall_cons in Hpos as [H0 _]. split; lra.
  - eexists. split; [reflexivity|]. simpl.
    apply Forall_cons in Hpos as [_ [H1 _]%Forall_cons].
    inversion Hs as [|? ? _ Hhd]; subst. inversion Hhd; subst.
    unfold Qdesc in *. split; [done|lra].
  - eexists. split; [reflexivity|]. simpl.
    inversion Hs as [|? ? Hs' Hhd]; subst. inversion Hhd; subst.
    inversion Hs' as [|? ? _ Hhd']; subst. inversion Hhd'; subst.
    by unfold Qdesc in *.
Qed.

Lemma unique_sizes_thresholds title_size cands :
  Forall well_formed cands ->
  heading_sizes_of title_size cands <> [] ->
  exists thr, make_thresholds (unique_sizes_of title_size cands) = Some thr
    /\ (thr_H2 thr <= thr_H1 thr)%Q /\ (thr_H3 thr <= thr_H2 thr)%Q.
Proof.
  intros Hwf Hne. apply make_thresholds_ordered.
  - by apply sorted_reverse_nonempty, set_of_nonempty.
  - apply sorted_reverse_sorted.
  - apply sorted_reverse_Forall, set_of_Forall, Forall_forall.
    intros s [_ Hs]%list_elem_of_filter.
    apply list_elem_of_In, in_map_iff in Hs as (c & <- & Hc).
    rewrite Forall_forall in Hwf. apply list_elem_of_In in Hc.
    by apply Hwf in Hc as (_ & _ & ?).
Qed.

(** ** Deduplicator and Assembler *)

Section assembler.
Variables (thr : thresholds) (title_size : option Q).

(** The state of the loop after [cands]: the headings appended and the
    pairs of every candidate met, emitted or not. *)
Lemma assemble_state cands out seen :
  fold_left (assemble_step thr title_size) cands (out, seen)
  = (out ++ emit thr title_size seen cands,
     list_to_set (key_of <$> cands) ∪ seen).
Proof.
  revert out seen. induction cands as [|c rest IH]; intros out seen.
  { simpl. rewrite app_nil_r. f_equal. set_solver. }
  cbn [fold_left emit assemble_step]. case_bool_decide as Hk.
  - rewrite IH. f_equal. set_solver.
  - destruct (detect_heading_level _ _ _); rewrite IH.
    + rewrite <-app_assoc. f_equal. set_solver.
    + f_equal. set_solver.
Qed.

Lemma assemble_emit cands :
  assemble thr title_size cands = emit thr title_size ∅ cands.
Proof. unfold assemble. by rewrite assemble_state. Qed.

Lemma emit_app seen pre post :
  emit thr title_size seen (pre ++ post)
  = emit thr title_size seen pre
    ++ emit thr title_size (list_to_set (key_of <$> pre) ∪ seen) post.
Proof.
  pose proof (assemble_state (pre ++ post) [] seen) as H.
  rewrite fold_left_app, !assemble_state in H. simpl in H.
  by injection H as <- _.
Qed.

Lemma emit_keys_fresh seen cands :
  Forall (fun h => heading_key h ∉ seen) (emit thr title_size seen cands)
  /\ NoDup (heading_key <$> emit thr title_size seen cands).
Proof.
  revert seen. induction cands as [|c rest IH]; intros seen; simpl.
  { split; constructor. }
  case_bool_decide as Hk; [apply IH|].
  destruct (IH ({[ key_of c ]} ∪ seen)) as [Hfresh Hnd].
  assert (Hweak : Forall (fun h => heading_key h ∉ seen)
                         (emit thr title_size ({[ key_of c ]} ∪ seen) rest)).
  { eapply Forall_impl; [exact Hfresh|]. set_solver. }
  destruct (detect_heading_level _ _ _); [|done].
  split; [by constructor|]. cbn [fmap list_fmap]. apply NoDup_cons.
  split; [|done]. intros (h & Hh & Hin)%list_elem_of_fmap.
  rewrite Forall_forall in Hfresh. apply Hfresh in Hin.
  change (heading_key (Heading l (c_text c) (c_page c))) with (key_of c) in Hh.
  set_solver.
Qed.

Lemma emit_sublist seen cands :
  (text_page_of_heading <$> emit thr title_size seen cands)
    `sublist_of` (text_page_of_candidate <$> cands).
Proof.
  revert seen. induction cands as [|c rest IH]; intros seen; simpl; [done|].
  case_bool_decide; [by apply sublist_cons|].
  destruct (detect_heading_level _ _ _); [|by apply sublist_cons].
  cbn [fmap list_fmap]. by apply sublist_skip.
Qed.

(** Every heading comes from the first candidate with its pair, and the
    size of that candidate was given its level. *)
Lemma emit_origin seen cands h :
  h ∈ emit thr title_size seen cands ->
  exists pre c post,
    cands = pre ++ c :: post
    /\ (key_of c ∉ (key_of <$> pre)) /\ (key_of c ∉ seen)
    /\ detect_heading_level (c_size c) thr title_size = Some (h_level h)
    /\ h_text h = c_text c /\ h_page h = c_page c.
Proof.
  revert seen. induction cands as [|c rest IH]; intros seen; simpl.
  { by intros ?%elem_of_nil. }
  assert (Hlater : forall s, key_of c ∈ s ->
    h ∈ emit thr title_size s rest ->
    exists pre c' post, c :: rest = pre ++ c' :: post
      /\ (key_of c' ∉ (key_of <$> pre)) /\ (key_of c' ∉ s)
      /\ detect_heading_level (c_size c') thr title_size = Some (h_level h)
      /\ h_text h = c_text c' /\ h_page h = c_page c').
  { intros s Hs (pre & c' & post & -> & Hpre & Hc' & Hlv & Ht & Hp)%IH.
    exists (c :: pre), c', post. split; [done|].
    split; [|done]. cbn [fmap list_fmap]. rewrite not_elem_of_cons.
    split; [|done]. intros Heq. rewrite Heq in Hc'. done. }
  case_bool_decide as Hk.
  { intros Hh. destruct (Hlater seen Hk Hh) as (pre & c' & post & ?).
    by exists pre, c', post. }
  assert (Hin : key_of c ∈ ({[ key_of c ]} ∪ seen : gset key)) by set_solver.
  assert (Hnext : h ∈ emit thr title_size ({[ key_of c ]} ∪ seen) rest ->
    exists pre c' post, c :: rest = pre ++ c' :: post
      /\ (key_of c' ∉ (key_of <$> pre)) /\ (key_of c' ∉ seen)
      /\ detect_heading_level (c_size c') thr title_size = Some (h_level h)
      /\ h_text h = c_text c' /\ h_page h = c_page c').
  { intros Hh.
    destruct (Hlater _ Hin Hh) as (pre & c' & post & ? & ? & Hfresh & ?).
    exists pre, c', post. do 2 (split; [done|]). split; [|done].
    set_solver. }
  destruct (detect_heading_level (c_size c) thr title_size) as [lv|] eqn:Hlv;
    [|done].
  intros [->|Hh]%elem_of_cons; [|by apply Hnext].
  exists [], c, rest. repeat split; try done. by intros ?%elem_of_nil.
Qed.
End assembler.

(** ** The pipeline *)

Lemma map_is_fmap {A B} (f : A -> B) l : map f l = f <$> l.
Proof. induction l; [done|]. simpl. by f_equal. Qed.

Lemma sublist_strongly_sorted {A} (R : relation A) l1 l2 :
  l1 `sublist_of` l2 -> StronglySorted R l2 -> StronglySorted R l1.
Proof.
  induction 1 as [|x l1 l2 Hsub IH|x l1 l2 Hsub IH]; [done|..];
    intros [Hall Hs]%StronglySorted_cons.
  - apply StronglySorted_cons. split; [|by apply IH].
    rewrite Forall_forall in *. intros y Hy. apply Hall.
    by apply (sublist_subseteq _ _ Hsub).
  - by apply IH.
Qed.

(** On a document with a first page [extract_outline] always returns: the
    grouper raises nothing on the collected candidates, and either no
    size is left after the title size is set aside, and the outline is
    empty, or the threshold table exists and the outline is assembled
    from the groups. *)
Lemma extract_outline_cases pdf_path first_page others :
  let doc := first_page :: others in
  let ts := title_size_of first_page in
  exists grouped,
    group_multiline_headings (collect_candidates doc) = Some grouped
    /\ Forall well_formed grouped
    /\ (heading_sizes_of ts grouped = []
        /\ extract_outline pdf_path doc
           = Some (Result (title_of pdf_path first_page) [])
        \/ exists thr,
             heading_sizes_of ts grouped <> []
             /\ make_thresholds (unique_sizes_of ts grouped) = Some thr
             /\ (thr_H2 thr <= thr_H1 thr)%Q /\ (thr_H3 thr <= thr_H2 thr)%Q
             /\ extract_outline pdf_path doc
                = Some (Result (title_of pdf_path first_page)
                               (assemble thr ts grouped))).
Proof.
  intros doc ts.
  pose proof (collect_candidates_well_formed doc) as Hwf.
  destruct (group_multiline_headings_total (collect_candidates doc))
    as [grouped Hg].
  { eapply Forall_impl; [exact Hwf|]. by intros c (_ & ? & _). }
  destruct (group_multiline_headings_runs _ _ Hg) as (runs & Hruns & Hall).
  assert (Hgwf : Forall well_formed grouped).
  { apply (grouped_well_formed runs); [done|by rewrite Hruns]. }
  exists grouped. split; [done|]. split; [done|].
  unfold extract_outline, title_of. subst doc ts.
  cbn [head mbind option_bind]. unfold title_size_of.
  destruct (extract_title first_page) as [t ts]. cbn [fst snd].
  rewrite Hg. cbn [mbind option_bind].
  destruct (heading_sizes_of ts grouped) as [|s sizes] eqn:Hsizes.
  - left. split; [done|]. destruct grouped; by destruct t.
  - right.
    destruct (unique_sizes_thresholds ts grouped Hgwf) as (thr & Hthr & H12 & H23).
    { by rewrite Hsizes. }
    exists thr. rewrite Hthr. cbn [mbind option_bind].
    repeat split; try done.
    destruct grouped as [|g gs]; [done|]. by destruct t.
Qed.

(** C10. On every document with a first page [extract_outline] returns
    a result (the indexing and the [split()[-1]] and [split()[0]] of the
    grouper raise nothing on the collected candidates), and every heading
    of its outline has a text of at least 4 characters. *)
Theorem outline_texts_longer_than_three pdf_path first_page others :
  exists r, extract_outline pdf_path (first_page :: others) = Some r
    /\ Forall (fun h => (4 <= length (h_text h))%nat) (outline r).
Proof.
  destruct (extract_outline_cases pdf_path first_page others)
    as (grouped & _ & Hwf & [[_ ->]|(thr & _ & _ & _ & _ & ->)]).
  - eexists. split; [done|]. constructor.
  - eexists. split; [done|]. cbn [outline]. rewrite assemble_emit.
    apply Forall_forall. intros h Hh.
    apply emit_origin in Hh as (pre & c & post & -> & _ & _ & _ & -> & _).
    by apply Forall_app in Hwf as [_ [(? & _)  _]%Forall_cons].
Qed.

(** C4. For the candidates of any document and any title size, when the
    list of sizes left after the title size is set aside is not empty, the
    threshold table exists and satisfies H1 >= H2 >= H3; with fewer than
    three distinct sizes this covers the entries [unique[0] * 0.85] and
    [unique[-1] * 0.7]. *)
Theorem thresholds_descending doc title_size grouped :
  group_multiline_headings (collect_candidates doc) = Some grouped ->
  heading_sizes_of title_size grouped <> [] ->
  exists thr,
    make_thresholds (unique_sizes_of title_size grouped) = Some thr
    /\ (thr_H1 thr >= thr_H2 thr)%Q /\ (thr_H2 thr >= thr_H3 thr)%Q.
Proof.
  intros Hg Hne. apply unique_sizes_thresholds; [|done].
  destruct (group_multiline_headings_runs _ _ Hg) as (runs & Hruns & Hall).
  apply (grouped_well_formed runs); [done|]. rewrite Hruns.
  apply collect_candidates_well_formed.
Qed.

(** C6. No two headings of an outline share the pair of lower-cased text
    and page. *)
Theorem outline_pairs_unique pdf_path doc r :
  extract_outline pdf_path doc = Some r ->
  NoDup (heading_key <$> outline r).
Proof.
  destruct doc as [|first_page others]; [done|].
  destruct (extract_outline_cases pdf_path first_page others)
    as (grouped & _ & _ & [[_ ->]|(thr & _ & _ & _ & _ & ->)]);
    intros [= <-]; cbn [outline]; [constructor|].
  rewrite assemble_emit. apply emit_keys_fresh.
Qed.

Lemma detect_heading_level_title_size size thr ts :
  (size == ts)%Q -> detect_heading_level size thr (Some ts) = None.
Proof.
  intros H. unfold detect_heading_level.
  by rewrite (proj2 (Qeq_bool_iff size ts) H).
Qed.

(** C5. When a title size [ts] was detected, [detect_heading_level] gives
    no level to a size equal to [ts], and every heading of the outline
    comes from a group (the first one with its pair) whose size differs
    from [ts]. *)
Theorem no_heading_of_title_size pdf_path first_page others r ts :
  extract_outline pdf_path (first_page :: others) = Some r ->
  title_size_of first_page = Some ts ->
  (forall size thr, (size == ts)%Q ->
     detect_heading_level size thr (Some ts) = None)
  /\ forall h, h ∈ outline r ->
       exists pre c post,
         group_multiline_headings (collect_candidates (first_page :: others))
         = Some (pre ++ c :: post)
         /\ (key_of c ∉ (key_of <$> pre))
         /\ h_text h = c_text c /\ h_page h = c_page c
         /\ ~ (c_size c == ts)%Q.
Proof.
  intros Hr Hts. split; [intros; by apply detect_heading_level_title_size|].
  destruct (extract_outline_cases pdf_path first_page others)
    as (grouped & Hg & _ & [[_ Ho]|(thr & _ & _ & _ & _ & Ho)]);
    rewrite Ho in Hr; injection Hr as <-; cbn [outline].
  { by intros h ?%elem_of_nil. }
  intros h Hh. rewrite assemble_emit in Hh.
  apply emit_origin in Hh as (pre & c & post & -> & Hpre & _ & Hlv & Ht & Hp).
  exists pre, c, post. repeat split; try done.
  intros Heq. rewrite Hts in Hlv.
  by rewrite (detect_heading_level_title_size _ _ _ Heq) in Hlv.
Qed.

(** C8. The pages of the outline never decrease, and the outline is, in
    order, a selection of the groups, which are themselves consecutive
    runs of the candidates in the order the scan collected them: nothing
    is sorted by size or by level. *)
Theorem outline_in_reading_order pdf_path doc r :
  extract_outline pdf_path doc = Some r ->
  StronglySorted le (h_page <$> outline r)
  /\ exists runs groups,
       concat runs = collect_candidates doc
       /\ Forall2 groups_run runs groups
       /\ (text_page_of_heading <$> outline r)
            `sublist_of` (text_page_of_candidate <$> groups).
Proof.
  destruct doc as [|first_page others]; [done|]. intros Hr.
  destruct (extract_outline_cases pdf_path first_page others)
    as (grouped & Hg & _ & Hcases).
  destruct (group_multiline_headings_runs _ _ Hg) as (runs & Hruns & Hall).
  assert (Hsub : (text_page_of_heading <$> outline r)
                   `sublist_of` (text_page_of_candidate <$> grouped)).
  { destruct Hcases as [[_ Ho]|(thr & _ & _ & _ & _ & Ho)];
      rewrite Ho in Hr; injection Hr as <-; cbn [outline].
    - apply sublist_nil_l.
    - rewrite assemble_emit. apply emit_sublist. }
  split; [|by exists runs, grouped].
  apply (sublist_strongly_sorted _ _ (c_page <$> grouped)).
  - apply (fmap_sublist snd) in Hsub.
    by rewrite <-!list_fmap_compose in Hsub.
  - rewrite <-map_is_fmap. apply (grouped_pages_sorted runs); [done|].
    rewrite Hruns. apply collect_candidates_pages_sorted.
Qed.

(** C9. When the scan collects no candidate, or a title size was detected
    and every group has that size, the outline is the empty list. *)
Theorem outline_empty_without_other_sizes pdf_path first_page others :
  let doc := first_page :: others in
  (collect_candidates doc = []
   \/ exists ts grouped,
        title_size_of first_page = Some ts
        /\ group_multiline_headings (collect_candidates doc) = Some grouped
        /\ Forall (fun c => (c_size c == ts)%Q) grouped) ->
  exists t, extract_outline pdf_path doc = Some (Result t []).
Proof.
  intros doc Hcase. exists (title_of pdf_path first_page).
  destruct (extract_outline_cases pdf_path first_page others)
    as (grouped & Hg & _ & [[_ Ho]|(thr & Hne & _)]); [done|].
  exfalso. apply Hne. fold doc in Hg.
  destruct Hcase as [Hnil|(ts & grouped' & Hts & Hg' & Hall)].
  - rewrite Hnil in Hg. by injection Hg as <-.
  - rewrite Hg in Hg'. injection Hg' as <-. rewrite Hts.
    unfold heading_sizes_of. clear -Hall.
    induction Hall as [|c cs Hc _ IH]; [done|]. cbn [map].
    rewrite filter_cons_False; [done|]. unfold differs_from_title.
    apply Qeq_bool_iff in Hc. rewrite Hc. by intros [].
Qed.

(** ** De-duplication against the pairs already met *)

(** C2, counterexample. On [repeated_title_doc] the first group has the
    title size, gets no level and is not emitted, yet its pair is
    recorded; the second group, whose size is the H1 threshold, is dropped
    although the outline holds no heading at all. *)
Lemma repeated_title_heading_lost :
  title_size_of (hd [] repeated_title_doc) = Some (round1 24)
  /\ group_multiline_headings (collect_candidates repeated_title_doc)
     = Some repeated_title_groups
  /\ make_thresholds (unique_sizes_of (Some (round1 24)) repeated_title_groups)
     = Some repeated_title_thresholds
  /\ extract_outline (lit "report.pdf") repeated_title_doc
     = Some (Result (lit "Quarterly Results") [])
  /\ ~ emitted_unless_in_outline repeated_title_thresholds
         (Some (round1 24)) repeated_title_groups.
Proof.
  repeat split; try by vm_compute.
  intros Hclaim.
  specialize (Hclaim [Cand (round1 24) (lit "Quarterly Results") 1]
                (Cand (round1 16) (lit "Quarterly Results") 1) [] LvH1
                eq_refl eq_refl).
  assert (He : assemble repeated_title_thresholds (Some (round1 24))
                 [Cand (round1 24) (lit "Quarterly Results") 1] = [])
    by by vm_compute.
  assert (Ha : assemble repeated_title_thresholds (Some (round1 24))
                 repeated_title_groups = []) by by vm_compute.
  rewrite He, Ha in Hclaim. eapply elem_of_nil, Hclaim.
  by intros h ?%elem_of_nil.
Qed.

(** C2, amended. A candidate whose size gets a level is emitted, right
    after the headings of the candidates before it, whenever none of
    these candidates, emitted or not, carries its pair; when one of them
    does, the candidate is dropped and leaves no trace. *)
Theorem dedup_against_candidates_met thr title_size pre c post lv :
  detect_heading_level (c_size c) thr title_size = Some lv ->
  (key_of c ∉ (key_of <$> pre) ->
   exists rest,
     assemble thr title_size (pre ++ c :: post)
     = assemble thr title_size pre ++ Heading lv (c_text c) (c_page c) :: rest)
  /\ (key_of c ∈ (key_of <$> pre) ->
      assemble thr title_size (pre ++ c :: post)
      = assemble thr title_size (pre ++ post)).
Proof.
  intros Hlv. rewrite !assemble_emit, !emit_app. cbn [emit].
  assert (Hseen : key_of c ∈ (list_to_set (key_of <$> pre) ∪ ∅ : gset key)
                  <-> key_of c ∈ (key_of <$> pre)).
  { rewrite elem_of_union, elem_of_list_to_set, elem_of_empty. tauto. }
  split; intros Hk.
  - rewrite bool_decide_eq_false_2 by by rewrite Hseen.
    rewrite Hlv. by eexists.
  - by rewrite bool_decide_eq_true_2 by by rewrite Hseen.
Qed.

Lemma dedup_against_candidates_met_witness :
  assemble repeated_title_thresholds (Some (round1 24))
    ([Cand (round1 24) (lit "Quarterly Results") 1]
     ++ Cand (round1 16) (lit "Quarterly Results") 1 :: [])
  = assemble repeated_title_thresholds (Some (round1 24))
      ([Cand (round1 24) (lit "Quarterly Results") 1] ++ []).
Proof.
  apply (proj2 (dedup_against_candidates_met repeated_title_thresholds
                  (Some (round1 24))
                  [Cand (round1 24) (lit "Quarterly Results") 1]
                  (Cand (round1 16) (lit "Quarterly Results") 1) [] LvH1
                  eq_refl)).
  vm_compute. constructor.
Defined.

(** ** TextNormalizer *)

(** C1. [clean_text] is not idempotent: on ["a- b- c"] the hyphen repair
    joins ["a- b"], and the scan resumes after the [b] that starts the
    next break, which is left for a second call. *)
Theorem clean_text_second_pass_differs :
  clean_text (lit "a- b- c") = lit "ab- c"
  /\ clean_text (clean_text (lit "a- b- c")) = lit "abc"
  /\ clean_text (clean_text (lit "a- b- c")) <> clean_text (lit "a- b- c").
Proof. repeat split; by vm_compute. Qed.

(** C3. Two fragments of more than 2 characters that a space separates
    are left apart; indeed the third step of [clean_text] changes no text
    at all. *)
Theorem long_fragments_not_merged :
  clean_text (lit "hello world") = lit "hello world"
  /\ forall text, re_sub match_space_break repl_long_groups text = text.
Proof. split; [by vm_compute|apply space_break_repair_is_identity]. Qed.

(** ** Witnesses on the sample documents *)

Example sample_doc_outline :
  extract_outline (lit "/in/report.pdf") sample_doc
  = Some (Result (lit "Deep Learning for Computer Vision")
            [ Heading LvH1 (lit "Summary of work") 1;
              Heading LvH2 (lit "Introduction") 1;
              Heading LvH3 (lit "Conclusion") 2 ]).
Proof. by vm_compute. Qed.

Lemma thresholds_descending_witness :
  exists grouped,
    group_multiline_headings (collect_candidates sample_doc) = Some grouped
    /\ heading_sizes_of (Some 24%Q) grouped <> []
    /\ exists thr,
         make_thresholds (unique_sizes_of (Some 24%Q) grouped) = Some thr
         /\ (thr_H1 thr >= thr_H2 thr)%Q /\ (thr_H2 thr >= thr_H3 thr)%Q.
Proof.
  eexists. split; [vm_compute; reflexivity|]. split; [by vm_compute|].
  apply (thresholds_descending sample_doc); [vm_compute; reflexivity|].
  by vm_compute.
Defined.

Lemma outline_pairs_unique_witness :
  exists r,
    extract_outline (lit "/in/report.pdf") sample_doc = Some r
    /\ NoDup (heading_key <$> outline r).
Proof.
  eexists. split; [vm_compute; reflexivity|].
  apply (outline_pairs_unique (lit "/in/report.pdf") sample_doc).
  vm_compute; reflexivity.
Defined.

Lemma no_heading_of_title_size_witness :
  exists r ts,
    extract_outline (lit "/in/report.pdf") sample_doc = Some r
    /\ title_size_of (hd [] sample_doc) = Some ts
    /\ forall h, h ∈ outline r ->
         exists pre c post,
           group_multiline_headings (collect_candidates sample_doc)
           = Some (pre ++ c :: post)
           /\ (key_of c ∉ (key_of <$> pre))
           /\ h_text h = c_text c /\ h_page h = c_page c
           /\ ~ (c_size c == ts)%Q.
Proof.
  eexists _, _. split; [vm_compute; reflexivity|].
  split; [vm_compute; reflexivity|].
  apply (no_heading_of_title_size (lit "/in/report.pdf")
           (hd [] sample_doc) (tl sample_doc));
    vm_compute; reflexivity.
Defined.

Lemma outline_in_reading_order_witness :
  exists r,
    extract_outline (lit "/in/report.pdf") sample_doc = Some r
    /\ StronglySorted le (h_page <$> outline r)
    /\ exists runs groups,
         concat runs = collect_candidates sample_doc
         /\ Forall2 groups_run runs groups
         /\ (text_page_of_heading <$> outline r)
              `sublist_of` (text_page_of_candidate <$> groups).
Proof.
  eexists. split; [vm_compute; reflexivity|].
  apply (outline_in_reading_order (lit "/in/report.pdf") sample_doc).
  vm_compute; reflexivity.
Defined.

Lemma outline_empty_without_other_sizes_witness :
  exists t,
    extract_outline (lit "plain.pdf") single_size_doc = Some (Result t []).
Proof.
  apply (outline_empty_without_other_sizes (lit "plain.pdf")
           (hd [] single_size_doc) (tl single_size_doc)).
  right. eexists _, _. split; [vm_compute; reflexivity|].
  split; [vm_compute; reflexivity|].
  repeat (constructor; [by vm_compute|]). constructor.
Defined.

(** ** More on the TextNormalizer *)

Lemma re_sub_nil pattern repl : re_sub pattern repl [] = [].
Proof. done. Qed.

Lemma re_sub_cons_none pattern repl c tl :
  pattern (c :: tl) = None ->
  re_sub pattern repl (c :: tl) = c :: re_sub pattern repl tl.
Proof. intros H. unfold re_sub, sub. cbn [length sub_from]. by rewrite H. Qed.

Lemma re_sub_cons_some pattern repl c tl m :
  (forall s m, pattern s = Some m ->
     (length (match_rest m) < length s)%nat) ->
  pattern (c :: tl) = Some m ->
  re_sub pattern repl (c :: tl) = repl m ++ re_sub pattern repl (match_rest m).
Proof.
  intros Hshort H. unfold re_sub at 1. unfold sub. cbn [length sub_from].
  rewrite H. f_equal. apply re_sub_enough_fuel; [done|].
  apply Hshort in H. cbn [length] in H. lia.
Qed.

Lemma hyphen_shorter s m :
  match_hyphen_break s = Some m -> (length (match_rest m) < length s)%nat.
Proof. intros H. by apply match_hyphen_break_shorter in H as (_ & _ & ?). Qed.

Lemma match_hyphen_break_shape s m :
  match_hyphen_break s = Some m ->
  exists g1 ws g2,
    s = g1 :: "-"%char :: ws ++ g2 :: match_rest m
    /\ repl_groups m = [g1; g2]
    /\ isword g1 = true /\ isword g2 = true
    /\ ws <> [] /\ Forall (fun c => isspace c = true) ws.
Proof.
  destruct s as [|g1 [|h tl]]; [done|done|]. simpl.
  destruct (decide (h = "-"%char)) as [->|Hh].
  2:{ by destruct h as [[] [] [] [] [] [] [] []]. }
  destruct (isword g1) eqn:Hg1; [|done].
  destruct (match_spaces_word tl) as [[[ws g2] rest]|] eqn:Hm; [|done].
  intros [= <-]. apply match_spaces_word_split in Hm as (-> & ? & ? & ?).
  by exists g1, ws, g2.
Qed.

Lemma isword_not_space c : isword c = true -> isspace c = false.
Proof. by destruct c as [[] [] [] [] [] [] [] []]. Qed.

Lemma single_spaced_from_nonspace st c tl :
  isspace c = false ->
  single_spaced_from st (c :: tl) = single_spaced_from AfterChar tl.
Proof. intros H. simpl. by rewrite H. Qed.

Lemma single_spaced_after_spaces ws c rest :
  Forall (fun c => isspace c = true) ws -> isspace c = false ->
  single_spaced_from AfterChar (ws ++ c :: rest) = true ->
  single_spaced_from AfterChar rest = true.
Proof.
  intros Hws Hc. destruct Hws as [|w ws Hw Hws]; simpl.
  { by rewrite Hc. }
  rewrite Hw. destruct ws as [|w' ws]; simpl.
  - rewrite Hc. by intros [_ ?]%andb_true_iff.
  - apply Forall_cons in Hws as [-> _]. by rewrite andb_false_r.
Qed.

(** The hyphen repair keeps a text single-spaced. *)
Lemma hyphen_repair_single_spaced st t :
  single_spaced_from st t = true ->
  single_spaced_from st (re_sub match_hyphen_break repl_groups t) = true.
Proof.
  remember (length t) as k eqn:Hk. revert st t Hk.
  induction (lt_wf k) as [k _ IH]. intros st t -> Ht.
  destruct t as [|c tl]; [done|].
  destruct (match_hyphen_break (c :: tl)) as [m|] eqn:Hm.
  - rewrite (re_sub_cons_some _ _ _ _ m hyphen_shorter Hm).
    pose proof (hyphen_shorter _ _ Hm) as Hlt.
    destruct (match_hyphen_break_shape _ _ Hm)
      as (g1 & ws & g2 & Hs & -> & Hg1 & Hg2 & _ & Hws).
    apply isword_not_space in Hg1, Hg2.
    rewrite Hs in Ht. rewrite single_spaced_from_nonspace in Ht by done.
    rewrite single_spaced_from_nonspace in Ht by done.
    apply single_spaced_after_spaces in Ht; [|done..].
    cbn [app]. rewrite !single_spaced_from_nonspace by done.
    by apply (IH (length (match_rest m))).
  - rewrite (re_sub_cons_none _ _ _ _ Hm). simpl in *.
    destruct (isspace c).
    + destruct st; try done. apply andb_true_iff in Ht as [-> Ht]. simpl.
      apply (IH (length tl)); [lia|done|done].
    + apply (IH (length tl)); [lia|done|done].
Qed.

Lemma single_spaced_word_app st w rest :
  no_space w -> w <> [] ->
  single_spaced_from st (w ++ rest) = single_spaced_from AfterChar rest.
Proof.
  intros Hw Hne. revert st. induction Hw as [|c w Hc Hw IH]; [done|].
  intros st. cbn [app]. rewrite single_spaced_from_nonspace by done.
  destruct w as [|d w]; [done|]. by apply IH.
Qed.

Lemma split_go_words w s :
  no_space w ->
  Forall (fun x => no_space x /\ x <> []) (split_go w s).
Proof.
  revert w. induction s as [|c tl IH]; intros w Hw; simpl.
  { destruct w; [constructor|]. constructor; [done|constructor]. }
  destruct (isspace c) eqn:Hc.
  - destruct w as [|d w]; [by apply IH|].
    constructor; [done|]. apply IH. constructor.
  - apply IH. apply Forall_app. split; [done|]. by repeat constructor.
Qed.

Lemma join_cons_cons sep p q tl :
  join sep (p :: q :: tl) = p ++ sep ++ join sep (q :: tl).
Proof. done. Qed.

Lemma join_single_spaced st ws :
  Forall (fun x => no_space x /\ x <> []) ws ->
  ws <> [] \/ st <> AfterSpace ->
  single_spaced_from st (join (lit " ") ws) = true.
Proof.
  intros Hws. revert st. induction Hws as [|w ws [Hw Hne] Hws IH]; intros st Hst.
  { destruct Hst as [?|?]; [done|]. by destruct st. }
  destruct ws as [|w' ws].
  - cbn [join]. rewrite <-(app_nil_r w), single_spaced_word_app by done. done.
  - rewrite join_cons_cons, single_spaced_word_app by done.
    change (lit " " ++ ?x) with (" "%char :: x). cbn [single_spaced_from].
    change (isspace " ") with true. cbn match.
    rewrite bool_decide_eq_true_2 by done. apply IH. by left.
Qed.

(** The white-space normalisation gives a single-spaced text. *)
Lemma normalised_single_spaced s :
  single_spaced_from AtStart (join (lit " ") (split s)) = true.
Proof.
  apply join_single_spaced; [apply split_go_words; constructor|by right].
Qed.

(** On a single-spaced text the normalisation changes nothing. *)
Lemma single_spaced_join_split st w t :
  single_spaced_from st t = true ->
  no_space w -> (w <> [] <-> st = AfterChar) ->
  join (lit " ") (split_go w t) = w ++ t.
Proof.
  revert st w. induction t as [|c tl IH]; intros st w Ht Hw Hst;
    cbn [split_go].
  { rewrite app_nil_r. by destruct w. }
  cbn [single_spaced_from] in Ht. destruct (isspace c) eqn:Hc.
  - destruct st; try done. apply andb_true_iff in Ht as [Hsp Ht].
    apply bool_decide_eq_true in Hsp as ->.
    destruct w as [|d w]; [by destruct (proj2 Hst)|].
    assert (Hnext : split_go [] tl <> []).
    { destruct tl as [|e tl]; [done|]. simpl in Ht.
      destruct (isspace e) eqn:He; [done|].
      apply split_go_nonempty. right. simpl. by rewrite He. }
    pose proof (IH AfterSpace [] Ht) as Heq.
    destruct (split_go [] tl) as [|q qs]; [done|].
    rewrite join_cons_cons, Heq; [done|constructor|done].
  - rewrite (IH AfterChar (w ++ [c]) Ht).
    + by rewrite <-app_assoc.
    + apply Forall_app. split; [done|]. by repeat constructor.
    + split; [done|]. intros _. by destruct w.
Qed.

Lemma single_spaced_last st t c :
  single_spaced_from st t = true -> last t = Some c -> isspace c = false.
Proof.
  revert st. induction t as [|d tl IH]; intros st Ht Hl; [done|].
  simpl in Ht. destruct tl as [|e tl].
  - injection Hl as ->. destruct (isspace c); [|done].
    destruct st; try done. by rewrite andb_false_r in Ht.
  - change (last (d :: e :: tl)) with (last (e :: tl)) in Hl.
    destruct (isspace d).
    + destruct st; try done. apply andb_true_iff in Ht as [_ Ht]. by eapply IH.
    + by eapply IH.
Qed.

Lemma drop_while_nonspace_head p c tl : p c = false -> drop_while p (c :: tl) = c :: tl.
Proof. intros H. simpl. by rewrite H. Qed.

Lemma strip_single_spaced t :
  single_spaced_from AtStart t = true -> strip t = t.
Proof.
  intros Ht. unfold strip, lstrip_by, rstrip_by.
  destruct t as [|c tl]; [done|].
  assert (Hc : isspace c = false).
  { simpl in Ht. by destruct (isspace c). }
  rewrite drop_while_nonspace_head by done.
  destruct (rev (c :: tl)) as [|d r] eqn:Hr.
  { apply (f_equal (@rev _)) in Hr. by rewrite rev_involutive in Hr. }
  assert (Hd : isspace d = false).
  { apply (single_spaced_last AtStart (c :: tl)); [done|].
    apply (f_equal (@rev _)) in Hr. rewrite rev_involutive in Hr.
    rewrite Hr. simpl. by rewrite last_snoc. }
  rewrite drop_while_nonspace_head by done. by rewrite <-Hr, rev_involutive.
Qed.

(** What [clean_text] returns, without the steps that change nothing. *)
Lemma clean_text_unfold s :
  clean_text s
  = re_sub match_hyphen_break repl_groups
      (join (lit " ") (split (replace [LF] (lit " ") s)))
  /\ single_spaced_from AtStart (clean_text s) = true.
Proof.
  unfold clean_text. rewrite space_break_repair_is_identity.
  pose proof (hyphen_repair_single_spaced AtStart _
                (normalised_single_spaced (replace [LF] (lit " ") s))) as H.
  by rewrite strip_single_spaced.
Qed.

(** X1. The text [clean_text] returns is in white-space normal form:
    splitting it at white space and joining the words with single spaces
    gives it back, and it has no white space at either end. *)
Theorem clean_text_whitespace_normal s :
  join (lit " ") (split (clean_text s)) = clean_text s
  /\ strip (clean_text s) = clean_text s.
Proof.
  destruct (clean_text_unfold s) as [_ H]. split.
  - unfold split. rewrite (single_spaced_join_split AtStart [] _ H);
      [done|constructor|]. split; [done|by intros [=]].
  - by apply strip_single_spaced.
Qed.

(** [text.replace(a, b)] for one-character [a] and [b] works character by
    character. *)
Lemma replace_char a b s :
  replace [a] [b] s = map (fun c => if bool_decide (c = a) then b else c) s.
Proof.
  unfold replace, sub.
  set (f := fun t => if startswith [a] t
                     then Some ([b], drop (length [a]) t) else None).
  induction s as [|c tl IH]; [done|]. cbn [length sub_from map].
  assert (Hf : f (c :: tl)
               = if bool_decide (a = c) then Some ([b], tl) else None).
  { unfold f. simpl. by rewrite andb_true_r. }
  rewrite Hf. destruct (decide (a = c)) as [->|Hne].
  - rewrite !bool_decide_eq_true_2 by done. cbn [app]. by rewrite IH.
  - rewrite !bool_decide_eq_false_2 by congruence. by rewrite IH.
Qed.

Lemma newline_to_space_isspace c : isspace (newline_to_space c) = isspace c.
Proof. unfold newline_to_space. case_bool_decide as H; [by subst|done]. Qed.

Lemma has_word_newlines s : has_word (map newline_to_space s) = has_word s.
Proof.
  unfold has_word. induction s as [|c tl IH]; [done|]. simpl.
  by rewrite newline_to_space_isspace, IH.
Qed.

Lemma split_go_no_word s : has_word s = false -> split_go [] s = [].
Proof.
  unfold has_word. induction s as [|c tl IH]; [done|]. simpl.
  destruct (isspace c); [done|done].
Qed.

Lemma re_sub_hyphen_nonempty t :
  t <> [] -> re_sub match_hyphen_break repl_groups t <> [].
Proof.
  destruct t as [|c tl]; [done|]. intros _.
  destruct (match_hyphen_break (c :: tl)) as [m|] eqn:Hm.
  - rewrite (re_sub_cons_some _ _ _ _ m hyphen_shorter Hm).
    by destruct (match_hyphen_break_shape _ _ Hm) as (? & ? & ? & _ & -> & _).
  - by rewrite (re_sub_cons_none _ _ _ _ Hm).
Qed.

Lemma join_nonempty ws :
  Forall (fun x => no_space x /\ x <> []) ws -> ws <> [] ->
  join (lit " ") ws <> [].
Proof.
  intros Hws Hne. destruct Hws as [|w ws [_ Hw] _]; [done|].
  destruct ws; [done|]. rewrite join_cons_cons. by destruct w.
Qed.

(** X2. [clean_text] returns the empty text exactly on the texts made of
    white space only (the empty text included). *)
Theorem clean_text_empty_iff s :
  clean_text s = [] <-> has_word s = false.
Proof.
  destruct (clean_text_unfold s) as [-> _].
  change (lit " ") with [" "%char]. rewrite replace_char.
  fold newline_to_space. split.
  - intros Hnil. destruct (has_word s) eqn:Hw; [|done]. exfalso.
    revert Hnil. apply re_sub_hyphen_nonempty, join_nonempty.
    + apply split_go_words. constructor.
    + apply split_go_nonempty. right. by rewrite has_word_newlines.
  - intros Hw. unfold split. rewrite split_go_no_word; [done|].
    by rewrite has_word_newlines.
Qed.

Lemma hyphen_free_identity t :
  "-"%char ∉ t -> re_sub match_hyphen_break repl_groups t = t.
Proof.
  induction t as [|c tl IH]; [done|]. intros Hfree.
  destruct (match_hyphen_break (c :: tl)) as [m|] eqn:Hm.
  - destruct (match_hyphen_break_shape _ _ Hm) as (g1 & ws & g2 & Hs & _).
    exfalso. apply Hfree. rewrite Hs. set_solver.
  - rewrite (re_sub_cons_none _ _ _ _ Hm), IH; [done|]. set_solver.
Qed.

Lemma split_go_app_nospace w x r :
  no_space x -> split_go w (x ++ r) = split_go (w ++ x) r.
Proof.
  intros Hx. revert w. induction Hx as [|c x Hc _ IH]; intros w.
  { by rewrite app_nil_r. }
  cbn [app split_go]. rewrite Hc, IH. by rewrite <-app_assoc.
Qed.

Lemma split_go_spaces ws r :
  Forall (fun c => isspace c = true) ws ->
  split_go [] (ws ++ r) = split_go [] r.
Proof. induction 1 as [|c ws Hc _ IH]; [done|]. cbn [app split_go]. by rewrite Hc. Qed.

Lemma split_go_word_spaces w ws r :
  w <> [] -> ws <> [] -> Forall (fun c => isspace c = true) ws ->
  split_go w (ws ++ r) = w :: split_go [] r.
Proof.
  intros Hw Hne Hws. destruct Hws as [|c ws Hc Hws]; [done|].
  cbn [app split_go]. rewrite Hc. destruct w; [done|].
  by rewrite split_go_spaces.
Qed.

Lemma isword_not_hyphen c : isword c = true -> c <> "-"%char.
Proof. intros H ->. done. Qed.

Lemma isword_not_LF c : isword c = true -> newline_to_space c = c.
Proof.
  intros H. unfold newline_to_space. case_bool_decide as Hc; [|done].
  by subst.
Qed.

Lemma words_hyphen_free v :
  Forall (fun c => isword c = true) v -> "-"%char ∉ v.
Proof.
  intros Hv Hin. rewrite Forall_forall in Hv. by apply Hv in Hin.
Qed.

Lemma match_hyphen_break_inside c d tl :
  d <> "-"%char -> match_hyphen_break (c :: d :: tl) = None.
Proof.
  intros Hd. destruct (match_hyphen_break (c :: d :: tl)) as [m|] eqn:Hm; [|done].
  destruct (match_hyphen_break_shape _ _ Hm) as (? & ? & ? & [= _ ? _] & _).
  done.
Qed.

Lemma hyphen_repair_scan u g1 g2 v :
  Forall (fun c => isword c = true) u ->
  isword g1 = true -> isword g2 = true ->
  re_sub match_hyphen_break repl_groups
    (u ++ g1 :: "-"%char :: " "%char :: g2 :: v)
  = u ++ g1 :: g2 :: re_sub match_hyphen_break repl_groups v.
Proof.
  intros Hu Hg1 Hg2. induction Hu as [|c u Hc Hu IH].
  - assert (Hm : match_hyphen_break (g1 :: "-"%char :: " "%char :: g2 :: v)
                 = Some (ReMatch (g1 :: "-"%char :: [" "%char] ++ [g2])
                           [g1] [g2] v)).
    { cbn [match_hyphen_break]. rewrite Hg1. unfold match_spaces_word.
      cbn [take_while drop_while]. change (isspace " ") with true.
      cbn match. rewrite (isword_not_space _ Hg2). by rewrite Hg2. }
    by rewrite (re_sub_cons_some _ _ _ _ _ hyphen_shorter Hm).
  - cbn [app]. rewrite re_sub_cons_none; [by rewrite IH|].
    destruct u as [|d u]; cbn [app]; apply match_hyphen_break_inside.
    + by apply isword_not_hyphen.
    + apply Forall_cons in Hu as [Hd _]. by apply isword_not_hyphen.
Qed.

(** X3. A word broken by a hyphen is repaired: for non-empty runs [u] and
    [v] of word characters and a non-empty run [ws] of white space (line
    feeds included), [clean_text] turns [u-ws v] into [uv]. *)
Theorem clean_text_joins_hyphenated u ws v :
  u <> [] -> Forall (fun c => isword c = true) u ->
  ws <> [] -> Forall (fun c => isspace c = true) ws ->
  v <> [] -> Forall (fun c => isword c = true) v ->
  clean_text (u ++ "-"%char :: ws ++ v) = u ++ v.
Proof.
  intros Hu Hwu Hws Hsp Hv Hwv.
  destruct (clean_text_unfold (u ++ "-"%char :: ws ++ v)) as [-> _].
  change (lit " ") with [" "%char]. rewrite replace_char.
  fold newline_to_space.
  assert (Hmap : forall x, Forall (fun c => isword c = true) x ->
                           map newline_to_space x = x).
  { induction 1 as [|c x Hc _ IH]; [done|]. simpl.
    by rewrite IH, isword_not_LF. }
  rewrite map_app. cbn [map]. rewrite map_app, (Hmap u), (Hmap v) by done.
  change (newline_to_space "-") with "-"%char.
  assert (Hno : forall x, Forall (fun c => isword c = true) x -> no_space x).
  { intros x Hx. eapply Forall_impl; [exact Hx|]. apply isword_not_space. }
  unfold split.
  change (u ++ "-"%char :: map newline_to_space ws ++ v)
    with (u ++ ["-"%char] ++ map newline_to_space ws ++ v).
  rewrite app_assoc, split_go_app_nospace.
  2:{ apply Forall_app. split; [by apply Hno|by repeat constructor]. }
  rewrite split_go_word_spaces.
  2:{ by destruct u. } 2:{ by destruct ws. }
  2:{ apply Forall_map. eapply Forall_impl; [exact Hsp|].
      intros c Hc. by rewrite newline_to_space_isspace. }
  rewrite <-(app_nil_r v) at 1. rewrite split_go_app_nospace by by apply Hno.
  cbn [app split_go]. destruct v as [|g2 v]; [done|].
  cbn [join]. destruct u as [|g1 u] using rev_ind; [done|]. clear IHu.
  apply Forall_app in Hwu as [Hwu [Hg1 _]%Forall_cons].
  apply Forall_cons in Hwv as [Hg2 Hwv].
  rewrite <-!app_assoc. cbn [app].
  rewrite hyphen_repair_scan by done.
  rewrite hyphen_free_identity by by apply words_hyphen_free.
  done.
Qed.

Lemma split_go_chars w t :
  Forall (fun x => forall c, c ∈ x -> c ∈ w \/ c ∈ t) (split_go w t).
Proof.
  revert w. induction t as [|d tl IH]; intros w; cbn [split_go].
  { destruct w as [|e w]; [constructor|].
    constructor; [|constructor]. intros c Hc. by left. }
  assert (Hrest : forall w', (forall c, c ∈ w' -> c ∈ w \/ c ∈ d :: tl) ->
    Forall (fun x => forall c, c ∈ x -> c ∈ w \/ c ∈ d :: tl) (split_go w' tl)).
  { intros w' Hw'. eapply Forall_impl; [apply IH|]. simpl.
    intros x Hx c Hc. destruct (Hx c Hc) as [?|?]; [by apply Hw'|].
    right. by constructor. }
  destruct (isspace d).
  - destruct w as [|e w]; [apply Hrest; by intros c ?%elem_of_nil|].
    constructor; [by left|]. apply Hrest. by intros c ?%elem_of_nil.
  - apply Hrest. intros c [?|Hc]%elem_of_app; [by left|].
    apply list_elem_of_singleton in Hc as ->. right. constructor.
Qed.

Lemma join_chars ws c :
  c ∈ join (lit " ") ws -> c = " "%char \/ exists w, w ∈ ws /\ c ∈ w.
Proof.
  induction ws as [|w ws IH]; [by intros ?%elem_of_nil|].
  destruct ws as [|w' ws].
  - intros Hc. right. exists w. split; [constructor|done].
  - rewrite join_cons_cons.
    intros [?|[Hsp|Hc]%elem_of_app]%elem_of_app.
    + right. exists w. split; [constructor|done].
    + left. by apply list_elem_of_singleton in Hsp.
    + destruct (IH Hc) as [?|(x & ? & ?)]; [by left|].
      right. exists x. split; [by constructor|done].
Qed.

Lemma normalised_chars t c :
  c ∈ join (lit " ") (split t) -> c = " "%char \/ c ∈ t.
Proof.
  intros [?|(w & Hw & Hc)]%join_chars; [by left|]. right.
  pose proof (split_go_chars [] t) as H. rewrite Forall_forall in H.
  destruct (H w Hw c Hc) as [?%elem_of_nil|?]; done.
Qed.

Lemma single_spaced_no_LF st t :
  single_spaced_from st t = true -> map newline_to_space t = t.
Proof.
  revert st. induction t as [|c tl IH]; intros st; [done|]. simpl.
  destruct (isspace c) eqn:Hc.
  - destruct st; try done. intros [->%bool_decide_eq_true Ht]%andb_true_iff.
    by rewrite (IH _ Ht).
  - intros Ht. rewrite (IH _ Ht). f_equal. unfold newline_to_space.
    case_bool_decide as H; [by subst|done].
Qed.

(** On a text without a hyphen [clean_text] is the white-space
    normalisation alone. *)
Lemma clean_text_hyphen_free s :
  "-"%char ∉ s ->
  clean_text s = join (lit " ") (split (map newline_to_space s))
  /\ "-"%char ∉ clean_text s.
Proof.
  intros Hfree. destruct (clean_text_unfold s) as [-> _].
  change (lit " ") with [" "%char]. rewrite replace_char.
  fold newline_to_space. change [" "%char] with (lit " ").
  assert (Hn : "-"%char ∉ join (lit " ") (split (map newline_to_space s))).
  { intros [?|Hin]%normalised_chars; [done|].
    apply list_elem_of_In, in_map_iff in Hin as (c & Hc & Hin).
    apply list_elem_of_In in Hin. unfold newline_to_space in Hc.
    case_bool_decide; [done|]. by subst. }
  by rewrite hyphen_free_identity.
Qed.

(** X4. On a text without a hyphen a second [clean_text] changes
    nothing. *)
Theorem clean_text_idempotent_without_hyphen s :
  "-"%char ∉ s -> clean_text (clean_text s) = clean_text s.
Proof.
  intros Hfree. destruct (clean_text_hyphen_free s Hfree) as [Hs Hfree'].
  destruct (clean_text_hyphen_free _ Hfree') as [-> _].
  destruct (clean_text_unfold s) as [_ Hsp].
  rewrite (single_spaced_no_LF _ _ Hsp). unfold split.
  rewrite (single_spaced_join_split AtStart [] _ Hsp); [done|constructor|].
  split; [done|by intros [=]].
Qed.

Lemma clean_text_joins_hyphenated_witness :
  clean_text (lit "under" ++ "-"%char :: [LF; " "%char] ++ lit "standing")
  = lit "under" ++ lit "standing".
Proof.
  apply clean_text_joins_hyphenated; try done; by repeat constructor.
Defined.

Lemma clean_text_idempotent_without_hyphen_witness :
  clean_text (clean_text (lit "word   with  spaces"))
  = clean_text (lit "word   with  spaces").
Proof.
  apply clean_text_idempotent_without_hyphen.
  apply (bool_decide_unpack _). by vm_compute.
Defined.

(** ** NoiseFilter *)






Lemma drop_while_idempotent p s : drop_while p (drop_while p s) = drop_while p s.
Proof.
  induction s as [|c tl IH]; [done|]. simpl. destruct (p c) eqn:Hc; [done|].
  simpl. by rewrite Hc.
Qed.

Lemma drop_while_fixed p s :
  match s with c :: _ => p c = false | [] => True end -> drop_while p s = s.
Proof. destruct s as [|c tl]; [done|]. simpl. by intros ->. Qed.

Lemma strip_idempotent s : strip (strip s) = strip s.
Proof.
  unfold strip, rstrip_by, lstrip_by.
  set (t := drop_while isspace (rev (drop_while isspace s))).
  assert (Hl : drop_while isspace (rev t) = rev t).
  { apply drop_while_fixed. destruct (rev t) as [|c u] eqn:Hr; [done|].
    apply (strip_head s). unfold strip, rstrip_by, lstrip_by. fold t.
    by rewrite Hr. }
  rewrite Hl, rev_involutive. unfold t. by rewrite drop_while_idempotent.
Qed.


Lemma startswith_app w y : startswith w (w ++ y) = true.
Proof.
  induction w as [|c w IH]; [done|]. simpl.
  by rewrite bool_decide_eq_true_2, IH.
Qed.

Lemma contains_app w x y : contains w (x ++ w ++ y) = true.
Proof.
  induction x as [|c x IH].
  - pose proof (startswith_app w y) as H. cbn [app].
    destruct (w ++ y); simpl; by rewrite H.
  - cbn [app contains]. rewrite IH. apply orb_true_r.
Qed.

Lemma drop_while_keeps p x c w y :
  p c = false ->
  exists x', drop_while p (x ++ c :: w ++ y) = x' ++ c :: w ++ y.
Proof.
  intros Hc. induction x as [|d x [x' IH]].
  - exists []. simpl. by rewrite Hc.
  - simpl. destruct (p d); [by exists x'|by exists (d :: x)].
Qed.

Lemma strip_keeps w x y :
  trimmed w = true -> exists x' y', strip (x ++ w ++ y) = x' ++ w ++ y'.
Proof.
  unfold trimmed. destruct w as [|c w]; [done|].
  destruct (last (c :: w)) as [d|] eqn:Hl; [|done].
  intros [Hc Hd]%andb_true_iff. apply negb_true_iff in Hc, Hd.
  unfold strip, lstrip_by, rstrip_by.
  change (x ++ (c :: w) ++ y) with (x ++ c :: w ++ y).
  destruct (drop_while_keeps isspace x c w y Hc) as [x' ->].
  destruct (rev (c :: w)) as [|e r] eqn:Hr.
  { apply (f_equal (@rev _)) in Hr. by rewrite rev_involutive in Hr. }
  assert (e = d) as ->.
  { apply (f_equal (@rev _)) in Hr. rewrite rev_involutive in Hr.
    rewrite Hr in Hl. simpl in Hl. rewrite last_snoc in Hl. by injection Hl. }
  change (x' ++ c :: w ++ y) with (x' ++ (c :: w) ++ y).
  rewrite !rev_app_distr, Hr, <-app_assoc. cbn [app].
  destruct (drop_while_keeps isspace (rev y) d r (rev x') Hd) as [y' ->].
  exists x', (rev y').
  change (y' ++ d :: r ++ rev x') with (y' ++ (d :: r) ++ rev x').
  rewrite <-Hr. by rewrite !rev_app_distr, !rev_involutive, <-app_assoc.
Qed.

Lemma noise_words_trimmed : forallb trimmed NOISE_WORDS = true.
Proof. by vm_compute. Qed.

(** X5. A text that holds a noise word anywhere, in any letter case, is
    noisy, whatever surrounds the word. *)
Theorem is_noisy_around_noise_word w a t b :
  w ∈ NOISE_WORDS -> lower t = w -> is_noisy (a ++ t ++ b) = true.
Proof.
  intros Hw Ht. unfold is_noisy. apply orb_true_iff. left.
  apply existsb_exists. exists w. apply list_elem_of_In in Hw.
  split; [done|].
  pose proof noise_words_trimmed as Htr. rewrite forallb_forall in Htr.
  unfold lower. rewrite !map_app. fold (lower a) (lower t) (lower b).
  rewrite Ht.
  destruct (strip_keeps w (lower a) (lower b) (Htr w Hw)) as (x' & y' & ->).
  apply contains_app.
Qed.

Lemma is_noisy_around_noise_word_witness :
  is_noisy ([] ++ lit "Introduction" ++ lit " to Machine Learning") = true.
Proof.
  apply (is_noisy_around_noise_word (lit "introduction")); [|done].
  apply (bool_decide_unpack _). by vm_compute.
Defined.

(** ** TitleDetector *)

Lemma fold_left_concat {A B} (f : A -> B -> A) (ls : list (list B)) a :
  fold_left f (concat ls) a = fold_left (fun a l => fold_left f l a) ls a.
Proof.
  revert a. induction ls as [|l ls IH]; intros a; [done|].
  simpl. by rewrite fold_left_app, IH.
Qed.

Lemma fold_left_map {A B C} (f : A -> C -> A) (g : B -> C) l a :
  fold_left f (map g l) a = fold_left (fun a x => f a (g x)) l a.
Proof. revert a. induction l as [|x l IH]; intros a; [done|]. simpl. by rewrite IH. Qed.

Lemma title_first_pass_flat blocks :
  title_first_pass blocks
  = fold_left title_first_pass_span (page_spans blocks) [].
Proof.
  unfold title_first_pass, page_spans, block_spans.
  rewrite fold_left_concat, fold_left_map. generalize (@nil (Q * list str)).
  induction blocks as [|b bs IH]; intros d; [done|]. cbn [fold_left].
  rewrite <-IH. f_equal. by rewrite fold_left_concat, fold_left_map.
Qed.

Lemma title_first_pass_span_eq d sp :
  title_first_pass_span d sp
  = if title_eligible sp
    then dict_append (round1 (span_size sp)) (clean_text (span_text sp)) d
    else d.
Proof.
  unfold title_first_pass_span, title_eligible.
  by destruct (is_noisy _ || _).
Qed.

Lemma dict_append_keys size text d k :
  k ∈ map fst (dict_append size text d) -> k ∈ map fst d \/ k = size.
Proof.
  induction d as [|[k' texts] d IH]; simpl.
  { intros ->%list_elem_of_singleton. by right. }
  destruct (Qeq_bool k' size); simpl.
  - by left.
  - intros [->|Hk]%elem_of_cons; [left; constructor|].
    destruct (IH Hk) as [?|?]; [left; by constructor|by right].
Qed.

Lemma dict_append_keeps size text d k :
  k ∈ map fst d -> k ∈ map fst (dict_append size text d).
Proof.
  induction d as [|[k' texts] d IH]; simpl; [by intros ?%elem_of_nil|].
  destruct (Qeq_bool k' size); simpl; [done|].
  intros [->|Hk]%elem_of_cons; [constructor|]. constructor. by apply IH.
Qed.

Lemma dict_append_has size text d :
  exists k, k ∈ map fst (dict_append size text d) /\ (k == size)%Q.
Proof.
  induction d as [|[k' texts] d (k & Hk & Heq)]; simpl.
  { exists size. split; [constructor|reflexivity]. }
  destruct (Qeq_bool k' size) eqn:Hq; simpl.
  - exists k'. split; [constructor|]. by apply Qeq_bool_iff.
  - exists k. split; [by constructor|done].
Qed.

(** The keys of [size_to_texts] are the rounded sizes of the eligible
    spans. *)
Lemma first_pass_keys_sound spans d k :
  k ∈ map fst (fold_left title_first_pass_span spans d) ->
  k ∈ map fst d
  \/ exists sp, sp ∈ spans /\ title_eligible sp = true
                /\ k = round1 (span_size sp).
Proof.
  revert d. induction spans as [|sp spans IH]; intros d; [by left|].
  cbn [fold_left]. intros Hk. destruct (IH _ Hk) as [Hd|(sp' & ? & ? & ?)].
  - rewrite title_first_pass_span_eq in Hd.
    destruct (title_eligible sp) eqn:He; [|by left].
    apply dict_append_keys in Hd as [?| ->]; [by left|].
    right. exists sp. split; [constructor|done].
  - right. exists sp'. split; [by constructor|done].
Qed.

Lemma first_pass_keys_keep spans d k :
  k ∈ map fst d -> k ∈ map fst (fold_left title_first_pass_span spans d).
Proof.
  revert d. induction spans as [|sp spans IH]; intros d Hk; [done|].
  cbn [fold_left]. apply IH. rewrite title_first_pass_span_eq.
  destruct (title_eligible sp); [by apply dict_append_keeps|done].
Qed.

Lemma first_pass_keys_complete spans d sp :
  sp ∈ spans -> title_eligible sp = true ->
  exists k, k ∈ map fst (fold_left title_first_pass_span spans d)
            /\ (k == round1 (span_size sp))%Q.
Proof.
  revert d. induction spans as [|sp' spans IH]; intros d Hin He.
  { by apply elem_of_nil in Hin. }
  cbn [fold_left]. apply elem_of_cons in Hin as [<-|Hin]; [|by apply IH].
  rewrite title_first_pass_span_eq, He.
  destruct (dict_append_has (round1 (span_size sp))
              (clean_text (span_text sp)) d) as (k & Hk & Heq).
  exists k. split; [by apply first_pass_keys_keep|done].
Qed.

Lemma max_fold_spec keys m0 :
  forall m,
  fold_left (fun m x => if Qgt_bool x m then x else m) keys m0 = m ->
  (m = m0 \/ m ∈ keys) /\ (m0 <= m)%Q /\ Forall (fun k => (k <= m)%Q) keys.
Proof.
  revert m0. induction keys as [|k keys IH]; intros m0 m; cbn [fold_left].
  { intros <-. split; [by left|]. split; [apply Qle_refl|constructor]. }
  unfold Qgt_bool. destruct (Qle_bool k m0) eqn:Hle; cbn [negb]; intros Hm.
  - apply Qle_bool_iff in Hle. destruct (IH m0 m Hm) as (Hin & Hm0 & Hall).
    split; [destruct Hin; [by left|right; by constructor]|].
    split; [done|]. constructor; [by eapply Qle_trans|done].
  - apply Qle_bool_false in Hle. destruct (IH k m Hm) as (Hin & Hk & Hall).
    split; [right; destruct Hin as [->|?]; [constructor|by constructor]|].
    split; [by eapply Qle_trans|]. by constructor.
Qed.

Lemma max_of_spec keys m :
  max_of keys = Some m -> m ∈ keys /\ Forall (fun k => (k <= m)%Q) keys.
Proof.
  destruct keys as [|k keys]; [done|]. simpl. intros [= <-].
  destruct (max_fold_spec keys k _ eq_refl) as (Hin & Hk & Hall). split.
  - destruct Hin as [->|?]; [constructor|by constructor].
  - by constructor.
Qed.

(** X8. The title size, when there is one, is the rounded size of an
    eligible span of the page and is not below the rounded size of any
    eligible span. *)
Theorem title_size_is_largest_eligible blocks m :
  title_size_of blocks = Some m ->
  (exists sp, sp ∈ page_spans blocks /\ title_eligible sp = true
              /\ m = round1 (span_size sp))
  /\ forall sp, sp ∈ page_spans blocks -> title_eligible sp = true ->
       (round1 (span_size sp) <= m)%Q.
Proof.
  unfold title_size_of, extract_title. rewrite title_first_pass_flat.
  destruct (max_of _) as [m'|] eqn:Hmax; [|done]. cbn [snd]. intros [= ->].
  apply max_of_spec in Hmax as [Hin Hall]. split.
  - by destruct (first_pass_keys_sound _ _ _ Hin) as [?%elem_of_nil|?].
  - intros sp Hsp He.
    destruct (first_pass_keys_complete _ [] sp Hsp He) as (k & Hk & Heq).
    rewrite Forall_forall in Hall. rewrite <-Heq. by apply Hall.
Qed.

Lemma first_pass_no_eligible spans d :
  Forall (fun sp => title_eligible sp = false) spans ->
  fold_left title_first_pass_span spans d = d.
Proof.
  induction 1 as [|sp spans He _ IH]; [done|]. cbn [fold_left].
  by rewrite title_first_pass_span_eq, He.
Qed.

(** X7. [extract_title] returns the empty title and no size exactly when
    the page has no eligible span (no span at all, blocks without lines,
    or only noisy or short texts). *)
Theorem extract_title_none_iff blocks :
  extract_title blocks = ([], None)
  <-> Forall (fun sp => title_eligible sp = false) (page_spans blocks).
Proof.
  unfold extract_title. rewrite title_first_pass_flat. split.
  - destruct (max_of _) as [m|] eqn:Hmax; [done|]. intros _.
    apply Forall_forall. intros sp Hsp.
    destruct (title_eligible sp) eqn:He; [|done]. exfalso.
    destruct (first_pass_keys_complete _ [] sp Hsp He) as (k & Hk & _).
    destruct (map fst _) as [|k' ks]; [by apply elem_of_nil in Hk|done].
  - intros Hall. by rewrite first_pass_no_eligible.
Qed.

Lemma strip_no_word t : has_word t = false -> strip t = [].
Proof.
  intros H. unfold strip, lstrip_by, rstrip_by.
  assert (drop_while isspace t = []) as ->; [|done].
  unfold has_word in H. induction t as [|c tl IH]; [done|]. simpl in *.
  destruct (isspace c); [by apply IH|done].
Qed.

Lemma not_noisy_has_word t : is_noisy t = false -> has_word t = true.
Proof.
  unfold is_noisy. intros [_ Hlen]%orb_false_iff.
  destruct (has_word t) eqn:Hw; [done|].
  by rewrite (strip_no_word t Hw) in Hlen.
Qed.

Lemma has_word_app_l s t : has_word s = true -> has_word (s ++ t) = true.
Proof. unfold has_word. rewrite existsb_app. by intros ->. Qed.

Lemma has_word_join sep l x :
  x ∈ l -> has_word x = true -> has_word (join sep l) = true.
Proof.
  intros Hx Hw. induction l as [|y l IH]; [by apply elem_of_nil in Hx|].
  destruct l as [|z l].
  - apply list_elem_of_singleton in Hx as ->. done.
  - rewrite join_cons_cons. apply elem_of_cons in Hx as [<-|Hx].
    + by apply has_word_app_l.
    + apply has_word_app_r, has_word_app_r. by apply IH.
Qed.

Lemma clean_text_of_word s : has_word s = true -> clean_text s <> [].
Proof.
  intros Hw. destruct (clean_text_unfold s) as [-> _].
  change (lit " ") with [" "%char]. rewrite replace_char.
  fold newline_to_space.
  apply re_sub_hyphen_nonempty, join_nonempty.
  - apply split_go_words. constructor.
  - apply split_go_nonempty. right. by rewrite has_word_newlines.
Qed.

Lemma fold_left_invariant {S A} (f : S -> A -> S) (I : S -> Prop) l s :
  (forall s y, I s -> I (f s y)) -> I s -> I (fold_left f l s).
Proof.
  intros Hkeep. revert s. induction l as [|y l IH]; intros s Hs; [done|].
  cbn [fold_left]. by apply IH, Hkeep.
Qed.

Lemma fold_left_event {S A} (f : S -> A -> S) (I : S -> Prop) l s x :
  (forall s y, I s -> I (f s y)) -> x ∈ l -> (forall s, I (f s x)) ->
  I (fold_left f l s).
Proof.
  intros Hkeep Hx Hset. revert s.
  induction l as [|y l IH]; intros s; [by apply elem_of_nil in Hx|].
  cbn [fold_left]. apply elem_of_cons in Hx as [<-|Hx].
  - by apply fold_left_invariant.
  - by apply IH.
Qed.

Lemma title_line_span_ok m acc sp :
  line_texts_ok acc -> line_texts_ok (title_line_span m acc sp).
Proof.
  unfold title_line_span, line_texts_ok. intros Hacc.
  destruct (Qeq_bool _ _); [|done].
  destruct (is_noisy _) eqn:Hn; [done|]. cbn [negb fst snd]. intros _.
  eexists. split; [apply elem_of_app; right; constructor|].
  by apply not_noisy_has_word.
Qed.

Lemma title_line_span_sets m acc sp :
  Qeq_bool (round1 (span_size sp)) m = true ->
  is_noisy (clean_text (span_text sp)) = false ->
  (title_line_span m acc sp).2 = true.
Proof. unfold title_line_span. by intros -> ->. Qed.

Lemma title_line_span_keeps m acc sp :
  acc.2 = true -> (title_line_span m acc sp).2 = true.
Proof.
  unfold title_line_span. intros Hacc.
  destruct (Qeq_bool _ _); [|done]. by destruct (is_noisy _).
Qed.

Lemma title_line_cases m pos st l :
  let acc := fold_left (title_line_span m) (get_list (line_spans l))
                       ([], false) in
  (acc.2 = false /\ title_line m pos st l = st)
  \/ (acc.2 = true /\ block_has_word (title_line m pos st l)).
Proof.
  intros acc. unfold title_line. fold acc.
  assert (Hok : line_texts_ok acc).
  { apply (fold_left_invariant _ line_texts_ok).
    - intros. by apply title_line_span_ok.
    - by intros [=]. }
  destruct acc as [line_texts [|]]; [right|by left]. split; [done|].
  destruct (Hok eq_refl) as (x & Hx & Hw). cbn [fst] in Hx.
  assert (Hfull : has_word (join (lit " ") line_texts) = true)
    by by apply (has_word_join _ _ x).
  unfold block_has_word.
  destruct (match previous_block_pos st with Some _ => _ | None => _ end);
    cbn [current_title_block]; eexists; (split; [|exact Hfull]).
  - apply elem_of_app. right. constructor.
  - constructor.
Qed.

Lemma title_line_keeps m pos st l :
  block_has_word st -> block_has_word (title_line m pos st l).
Proof. intros Hst. by destruct (title_line_cases m pos st l) as [[_ ->]|[_ ?]]. Qed.

Lemma title_line_sets m pos st l sp :
  sp ∈ get_list (line_spans l) ->
  Qeq_bool (round1 (span_size sp)) m = true ->
  is_noisy (clean_text (span_text sp)) = false ->
  block_has_word (title_line m pos st l).
Proof.
  intros Hsp Hq Hn. destruct (title_line_cases m pos st l) as [[Hf _]|[_ ?]];
    [|done].
  exfalso. revert Hf. apply not_false_iff_true.
  apply (fold_left_event _ (fun acc => acc.2 = true) _ _ sp); [|done|].
  - intros. by apply title_line_span_keeps.
  - intros. by apply title_line_span_sets.
Qed.

Lemma page_spans_in blocks sp :
  sp ∈ page_spans blocks ->
  exists b l, b ∈ blocks /\ l ∈ get_list (block_lines b)
              /\ sp ∈ get_list (line_spans l).
Proof.
  unfold page_spans, block_spans.
  intros (x & (b & <- & Hb)%in_map_iff & Hx)%list_elem_of_In%in_concat.
  apply in_concat in Hx as (y & (l & <- & Hl)%in_map_iff & Hy).
  exists b, l. by rewrite !list_elem_of_In.
Qed.

(** X9. When the page has an eligible span the title text is not empty,
    so the file-name fallback of [extract_outline] is not taken. *)
Theorem extract_title_text_nonempty blocks sp :
  sp ∈ page_spans blocks -> title_eligible sp = true ->
  (extract_title blocks).1 <> [].
Proof.
  intros Hsp He.
  destruct (title_size_of blocks) as [m|] eqn:Hm.
  2:{ unfold title_size_of, extract_title in Hm.
      rewrite title_first_pass_flat in Hm.
      destruct (max_of _) as [m|] eqn:Hmax; [done|].
      destruct (first_pass_keys_complete _ [] sp Hsp He) as (k & Hk & _).
      destruct (map fst _) as [|k' ks]; [by apply elem_of_nil in Hk|done]. }
  unfold title_size_of, extract_title in *.
  destruct (max_of _) as [m'|] eqn:Hmax; [|done]. cbn [fst snd] in *.
  injection Hm as ->. rewrite title_first_pass_flat in Hmax.
  apply max_of_spec in Hmax as [Hin _].
  destruct (first_pass_keys_sound _ _ _ Hin)
    as [?%elem_of_nil|(sp' & Hsp' & He' & ->)]; [done|].
  destruct (page_spans_in _ _ Hsp') as (b & l & Hb & Hl & Hl').
  assert (Hn : is_noisy (clean_text (span_text sp')) = false).
  { unfold title_eligible in He'. apply negb_true_iff in He'.
    by apply orb_false_iff in He' as [? _]. }
  assert (Hst : block_has_word
                  (title_second_pass (round1 (span_size sp')) blocks)).
  { unfold title_second_pass.
    apply (fold_left_event _ block_has_word _ _ b); [|done|].
    - intros st b' Hst. apply fold_left_invariant; [|done].
      intros. by apply title_line_keeps.
    - intros st. apply (fold_left_event _ block_has_word _ _ l); [|done|].
      + intros. by apply title_line_keeps.
      + intros st'. apply (title_line_sets _ _ _ _ sp'); [done| |done].
        apply Qeq_bool_iff. reflexivity. }
  destruct Hst as (x & Hx & Hw).
  destruct (current_title_block _) as [|y ys] eqn:Hcur;
    [by apply elem_of_nil in Hx|].
  apply clean_text_of_word. eapply has_word_join; [|].
  - apply elem_of_app. right. constructor.
  - by apply (has_word_join _ _ x).
Qed.

Lemma title_size_is_largest_eligible_witness :
  (exists sp, sp ∈ page_spans (hd [] sample_doc)
              /\ title_eligible sp = true
              /\ round1 24 = round1 (span_size sp))
  /\ forall sp, sp ∈ page_spans (hd [] sample_doc) ->
       title_eligible sp = true ->
       (round1 (span_size sp) <= round1 24)%Q.
Proof.
  apply (title_size_is_largest_eligible (hd [] sample_doc) (round1 24)).
  by vm_compute.
Defined.

Lemma extract_title_text_nonempty_witness :
  (extract_title (hd [] sample_doc)).1 <> [].
Proof.
  apply (extract_title_text_nonempty _ (Span (lit "Deep Learning for") 24)).
  - vm_compute. constructor.
  - by vm_compute.
Defined.

(** ** More on the MultilineGrouper *)

Lemma runs_length (runs : list (list candidate)) :
  Forall (fun run => run <> []) runs ->
  (length runs <= length (concat runs))%nat.
Proof.
  induction 1 as [|run runs Hne _ IH]; [done|]. simpl.
  rewrite length_app. destruct run; [done|]. simpl. lia.
Qed.

Lemma groups_runs_nonempty runs gs :
  Forall2 groups_run runs gs -> Forall (fun run => run <> []) runs.
Proof.
  induction 1 as [|run g runs gs Hg _ IH]; constructor; [|done].
  by eapply groups_run_nonempty.
Qed.

(** X10. The grouper returns at most as many groups as it got candidates,
    and none only for no candidate. *)
Theorem group_multiline_headings_length cands gs :
  group_multiline_headings cands = Some gs ->
  (length gs <= length cands)%nat /\ (gs = [] <-> cands = []).
Proof.
  intros Hg.
  destruct (group_multiline_headings_runs _ _ Hg) as (runs & <- & Hall).
  pose proof (groups_runs_nonempty _ _ Hall) as Hne.
  pose proof (runs_length _ Hne) as Hlen.
  rewrite (Forall2_length _ _ _ Hall) in Hlen. split; [done|]. split.
  - intros ->. by destruct runs; [|inversion Hall].
  - intros Hnil. destruct gs as [|g gs]; [done|].
    rewrite Hnil in Hlen. simpl in Hlen. lia.
Qed.

Lemma group_multiline_headings_length_witness :
  (length [Cand 16 (lit "Introduction") 2] <=
   length [Cand 16 (lit "Intro-") 2; Cand 16 (lit "duction") 2])%nat
  /\ ([Cand 16 (lit "Introduction") 2] = []
      <-> [Cand 16 (lit "Intro-") 2; Cand 16 (lit "duction") 2] = []).
Proof.
  apply group_multiline_headings_length. by vm_compute.
Defined.

Lemma should_merge_other_slot cur c :
  ~ same_slot cur c -> should_merge cur c = Some false.
Proof.
  unfold should_merge, same_slot. intros Hn.
  destruct (Qeq_bool (c_size c) (c_size cur)) eqn:Hs; [|done].
  destruct (Nat.eqb_spec (c_page c) (c_page cur)); [|done].
  exfalso. apply Hn. by apply Qeq_bool_iff in Hs.
Qed.

Lemma group_step_other_slot grouped cur c :
  ~ same_slot cur c -> group_step (grouped, cur) c = Some (grouped ++ [cur], c).
Proof.
  intros H. unfold group_step. by rewrite (should_merge_other_slot cur c H).
Qed.

Lemma for_each_group_step_apart cs grouped cur :
  (forall i c c', (cur :: cs) !! i = Some c -> (cur :: cs) !! S i = Some c' ->
     ~ same_slot c c') ->
  exists init final,
    cur :: cs = init ++ [final]
    /\ for_each group_step cs (grouped, cur) = Some (grouped ++ init, final).
Proof.
  revert grouped cur. induction cs as [|c cs IH]; intros grouped cur Hd.
  { exists [], cur. by rewrite app_nil_r. }
  cbn [for_each]. rewrite group_step_other_slot by by apply (Hd 0%nat).
  cbn [mbind option_bind].
  destruct (IH (grouped ++ [cur]) c) as (init & final & Heq & ->).
  { intros i x y Hx Hy. by apply (Hd (S i)). }
  exists (cur :: init), final. rewrite Heq. by rewrite <-app_assoc.
Qed.

(** X11. When no candidate has the size and page of the one before it,
    the grouper returns the candidates unchanged, whatever their texts
    (the texts are not looked at, so nothing is raised). *)
Theorem group_multiline_headings_apart cands :
  (forall i c c', cands !! i = Some c -> cands !! S i = Some c' ->
     ~ same_slot c c') ->
  group_multiline_headings cands = Some cands.
Proof.
  destruct cands as [|cur cs]; [done|]. intros Hd. cbn [group_multiline_headings].
  destruct (for_each_group_step_apart cs [] cur Hd) as (init & final & -> & ->).
  done.
Qed.

Lemma group_multiline_headings_apart_witness :
  group_multiline_headings [Cand 16 [] 1; Cand 14 [] 1; Cand 14 [] 2]
  = Some [Cand 16 [] 1; Cand 14 [] 1; Cand 14 [] 2].
Proof.
  apply group_multiline_headings_apart.
  intros [|[|[|i]]] c c' [= <-] [= <-]; unfold same_slot; simpl.
  - by intros [? _].
  - by intros [_ ?].
Defined.

Lemma for_each_app {S A} (body : S -> A -> option S) l1 l2 st :
  for_each body (l1 ++ l2) st = for_each body l1 st ≫= for_each body l2.
Proof.
  revert st. induction l1 as [|x l1 IH]; intros st; [done|].
  cbn [app for_each]. destruct (body st x); [apply IH|done].
Qed.

Lemma should_merge_empty_text cur c :
  same_slot cur c -> c_text c = [] -> should_merge cur c = None.
Proof.
  unfold should_merge, same_slot. intros [Hs ->] ->.
  apply Qeq_bool_iff in Hs. by rewrite Hs, Nat.eqb_refl.
Qed.

Lemma group_step_empty_text grouped cur c :
  same_slot cur c -> c_text c = [] -> group_step (grouped, cur) c = None.
Proof.
  intros H Ht. unfold group_step. by rewrite should_merge_empty_text.
Qed.

(** The current group has the page of the last candidate it took, and a
    size equal to its size. *)
Lemma for_each_group_step_last cs c0 grouped cur :
  for_each group_step cs ([], c0) = Some (grouped, cur) ->
  forall p, last (c0 :: cs) = Some p -> same_slot cur p.
Proof.
  intros Hf p Hp.
  destruct (for_each_group_step_runs _ _ _ _ _ [] [c0] Hf)
    as (runs & run & _ & [Hj Hrun] & Hc).
  { constructor. } { apply groups_run_single. }
  destruct run as [|q run _] using rev_ind.
  { by apply joined_last in Hj as (? & ? & ? & _). }
  cbn [concat app] in Hc. rewrite app_assoc in Hc.
  change ([c0] ++ cs) with (c0 :: cs) in Hc.
  rewrite <-Hc, last_snoc in Hp. injection Hp as ->.
  apply Forall_app in Hrun as [_ [[? ?] _]%Forall_cons]. by split.
Qed.

(** X12. The grouper raises (IndexError on [text[0]]) whenever a
    candidate with an empty text follows a candidate of the same size and
    page. *)
Theorem group_multiline_headings_empty_text pre p c post :
  same_slot p c -> c_text c = [] ->
  group_multiline_headings (pre ++ p :: c :: post) = None.
Proof.
  intros [Hs Hp] Ht.
  assert (exists c0 cs, pre ++ p :: c :: post = c0 :: cs ++ c :: post
                        /\ last (c0 :: cs) = Some p) as (c0 & cs & -> & Hl).
  { destruct pre as [|c0 pre].
    - by exists p, [].
    - exists c0, (pre ++ [p]). split; [by rewrite <-app_assoc|].
      by rewrite app_comm_cons, last_snoc. }
  cbn [group_multiline_headings]. rewrite for_each_app.
  destruct (for_each group_step cs ([], c0)) as [[grouped cur]|] eqn:Hf;
    [|done].
  cbn [mbind option_bind for_each].
  destruct (for_each_group_step_last _ _ _ _ Hf p Hl) as [Hs' Hp'].
  rewrite group_step_empty_text; [done| |done].
  split; [by rewrite Hs|congruence].
Qed.

Lemma group_multiline_headings_empty_text_witness :
  group_multiline_headings
    ([] ++ Cand 16 (lit "Results") 3 :: Cand 16 [] 3 :: []) = None.
Proof.
  apply group_multiline_headings_empty_text; [by split|done].
Defined.

(** ** Levels, pages and the fallback title *)

(** X14. [detect_heading_level] is monotone in the size: a size that is
    not the title size and is not below a size with a level gets a level
    at least as high, whatever the thresholds. *)
Theorem detect_heading_level_monotone size size' thr title_size lv :
  detect_heading_level size thr title_size = Some lv ->
  (size <= size')%Q ->
  differs_from_title title_size size' = true ->
  exists lv', detect_heading_level size' thr title_size = Some lv'
              /\ (level_rank lv' <= level_rank lv)%nat.
Proof.
  unfold detect_heading_level, differs_from_title, Qge_bool.
  intros Hlv Hle Hts.
  assert (Hup : forall t, Qle_bool t size = true -> Qle_bool t size' = true).
  { intros t Ht. apply Qle_bool_iff. apply Qle_bool_iff in Ht.
    by eapply Qle_trans. }
  assert (match title_size with
          | Some t => Qeq_bool size' t
          | None => false
          end = false) as ->.
  { destruct title_size; [by apply negb_true_iff|done]. }
  destruct (match title_size with Some t => Qeq_bool size t | None => false end);
    [done|].
  destruct (Qle_bool (thr_H1 thr) size) eqn:H1.
  { injection Hlv as <-. rewrite (Hup _ H1). eexists. split; [done|simpl; lia]. }
  destruct (Qle_bool (thr_H2 thr) size) eqn:H2.
  { injection Hlv as <-. rewrite (Hup _ H2).
    destruct (Qle_bool (thr_H1 thr) size'); eexists; (split; [done|simpl; lia]). }
  destruct (Qle_bool (thr_H3 thr) size) eqn:H3; [|done].
  injection Hlv as <-. rewrite (Hup _ H3).
  destruct (Qle_bool (thr_H1 thr) size'), (Qle_bool (thr_H2 thr) size');
    eexists; (split; [done|simpl; lia]).
Qed.

Lemma detect_heading_level_monotone_witness :
  exists lv', detect_heading_level 14 (Thresholds 18 14 11) (Some 24%Q) = Some lv'
              /\ (level_rank lv' <= level_rank LvH3)%nat.
Proof.
  apply (detect_heading_level_monotone 11 14 (Thresholds 18 14 11) (Some 24%Q));
    by vm_compute.
Defined.

Lemma detect_heading_level_Qeq s s' thr ts :
  (s == s')%Q -> detect_heading_level s thr ts = detect_heading_level s' thr ts.
Proof.
  intros Heq. unfold detect_heading_level, Qge_bool.
  assert (Hq : forall t, Qeq_bool s t = Qeq_bool s' t).
  { intros t. apply eq_true_iff_eq. rewrite !Qeq_bool_iff. by rewrite Heq. }
  assert (Hl : forall t, Qle_bool t s = Qle_bool t s').
  { intros t. apply eq_true_iff_eq. rewrite !Qle_bool_iff. by rewrite Heq. }
  rewrite !Hl. by destruct ts; rewrite ?Hq.
Qed.

Lemma set_of_distinct xs :
  StronglySorted (fun a b => ~ (b == a)%Q) (set_of xs).
Proof.
  induction xs as [|x xs IH]; [constructor|]. cbn [set_of]. constructor.
  - eapply sublist_strongly_sorted; [apply sublist_filter|done].
  - apply Forall_forall. intros y [Hy _]%list_elem_of_filter.
    intros Heq. apply Qeq_bool_iff in Heq. rewrite Heq in Hy. done.
Qed.

Lemma set_of_complete xs x :
  x ∈ xs -> exists u, u ∈ set_of xs /\ (x == u)%Q.
Proof.
  induction xs as [|y xs IH]; [by intros ?%elem_of_nil|].
  intros [->|Hx]%elem_of_cons; cbn [set_of].
  { exists y. split; [constructor|reflexivity]. }
  destruct (IH Hx) as (u & Hu & Heq).
  destruct (Qeq_bool u y) eqn:Huy.
  - apply Qeq_bool_iff in Huy. exists y. split; [constructor|].
    by rewrite Heq.
  - exists u. split; [|done]. constructor. apply list_elem_of_filter.
    split; [by rewrite Huy|done].
Qed.

Lemma insert_desc_elem x l y : y ∈ insert_desc x l <-> y = x \/ y ∈ l.
Proof.
  induction l as [|z l IH]; simpl.
  { rewrite list_elem_of_singleton. set_solver. }
  destruct (Qle_bool z x).
  - rewrite elem_of_cons. tauto.
  - rewrite !elem_of_cons, IH. tauto.
Qed.

Lemma sorted_reverse_elem xs y : y ∈ sorted_reverse xs <-> y ∈ xs.
Proof.
  induction xs as [|x xs IH]; [done|]. cbn [sorted_reverse foldr].
  fold (sorted_reverse xs). rewrite insert_desc_elem, IH, elem_of_cons. tauto.
Qed.

Lemma insert_desc_strict x l :
  StronglySorted Qdesc_strict l -> Forall (fun y => ~ (y == x)%Q) l ->
  StronglySorted Qdesc_strict (insert_desc x l).
Proof.
  induction 1 as [|y l Hl IH Hy]; intros Hx; simpl.
  { by repeat constructor. }
  apply Forall_cons in Hx as [Hyx Hx].
  destruct (Qle_bool y x) eqn:Hle.
  - apply Qle_bool_iff in Hle.
    assert (Hlt : (y < x)%Q).
    { apply Qle_lteq in Hle as [?|?]; done. }
    constructor; [by constructor|]. constructor; [done|].
    eapply Forall_impl; [exact Hy|]. unfold Qdesc_strict. intros z Hz.
    by eapply Qlt_trans.
  - assert (Hlt : (x < y)%Q).
    { destruct (Qlt_le_dec x y) as [?|Hge]; [done|].
      apply Qle_bool_iff in Hge. congruence. }
    constructor; [by apply IH|].
    apply Forall_forall. intros z [->|Hz]%insert_desc_elem; [done|].
    rewrite Forall_forall in Hy. by apply Hy.
Qed.

Lemma sorted_reverse_strict xs :
  StronglySorted (fun a b => ~ (b == a)%Q) xs ->
  StronglySorted Qdesc_strict (sorted_reverse xs).
Proof.
  induction 1 as [|x xs _ IH Hx]; [constructor|].
  cbn [sorted_reverse foldr]. fold (sorted_reverse xs).
  apply insert_desc_strict; [exact IH|].
  apply Forall_forall. intros y Hy%(proj1 (sorted_reverse_elem _ _)).
  rewrite Forall_forall in Hx. exact (Hx y Hy).
Qed.

Lemma unique_sizes_strict ts grouped :
  StronglySorted Qdesc_strict (unique_sizes_of ts grouped).
Proof. apply sorted_reverse_strict, set_of_distinct. Qed.

Lemma unique_sizes_differ ts grouped u :
  u ∈ unique_sizes_of ts grouped -> differs_from_title ts u = true.
Proof.
  intros Hu%(proj1 (sorted_reverse_elem _ _)).
  pose proof (set_of_Forall (fun u => differs_from_title ts u = true)
                (heading_sizes_of ts grouped)) as H.
  rewrite !Forall_forall in H. apply H; [|done].
  intros s [Hs _]%list_elem_of_filter. by destruct (differs_from_title ts s).
Qed.

Lemma detect_without_title s thr ts :
  differs_from_title ts s = true ->
  detect_heading_level s thr ts
  = if Qle_bool (thr_H1 thr) s then Some LvH1
    else if Qle_bool (thr_H2 thr) s then Some LvH2
    else if Qle_bool (thr_H3 thr) s then Some LvH3
    else None.
Proof.
  unfold detect_heading_level, differs_from_title, Qge_bool.
  destruct ts as [t|]; [|done]. by intros ->%negb_true_iff.
Qed.

Lemma Qle_bool_refl x : Qle_bool x x = true.
Proof. apply Qle_bool_iff, Qle_refl. Qed.

Lemma Qle_bool_lt x y : (x < y)%Q -> Qle_bool y x = false.
Proof.
  intros Hlt. destruct (Qle_bool y x) eqn:H; [|done].
  apply Qle_bool_iff in H. by apply Qle_not_lt in H.
Qed.

(** The level of every entry of a strictly descending [unique_sizes]
    under the thresholds made from it. *)
Lemma level_of_unique_size us thr ts i u :
  StronglySorted Qdesc_strict us ->
  Forall (fun u => differs_from_title ts u = true) us ->
  make_thresholds us = Some thr ->
  us !! i = Some u ->
  detect_heading_level u thr ts = level_of_index i.
Proof.
  intros Hs Hd Hthr Hi.
  assert (Hdu : differs_from_title ts u = true).
  { rewrite Forall_forall in Hd. apply Hd. by eapply list_elem_of_lookup_2. }
  rewrite detect_without_title by done.
  destruct us as [|u0 [|u1 [|u2 us]]]; [done|..].
  - injection Hthr as <-. destruct i as [|i]; [|done]. injection Hi as <-.
    cbn [thr_H1]. by rewrite Qle_bool_refl.
  - injection Hthr as <-. cbn [thr_H1 thr_H2 thr_H3].
    apply StronglySorted_cons in Hs as [[H01 _]%Forall_cons _].
    destruct i as [|[|i]]; [| |done]; injection Hi as <-.
    + by rewrite Qle_bool_refl.
    + by rewrite (Qle_bool_lt _ _ H01), Qle_bool_refl.
  - injection Hthr as <-. cbn [thr_H1 thr_H2 thr_H3].
    apply StronglySorted_cons in Hs as [[H01 [H02 H0]%Forall_cons]%Forall_cons Hs].
    apply StronglySorted_cons in Hs as [[H12 H1]%Forall_cons Hs].
    apply StronglySorted_cons in Hs as [H2 _].
    unfold Qdesc_strict in *.
    destruct i as [|[|[|i]]]; cbn [level_of_index].
    + injection Hi as <-. by rewrite Qle_bool_refl.
    + injection Hi as <-. by rewrite (Qle_bool_lt _ _ H01), Qle_bool_refl.
    + injection Hi as <-.
      by rewrite (Qle_bool_lt _ _ H02), (Qle_bool_lt _ _ H12), Qle_bool_refl.
    + cbn [lookup list_lookup] in Hi.
      apply list_elem_of_lookup_2 in Hi.
      rewrite Forall_forall in H0, H1, H2.
      by rewrite (Qle_bool_lt _ _ (H0 _ Hi)), (Qle_bool_lt _ _ (H1 _ Hi)),
        (Qle_bool_lt _ _ (H2 _ Hi)).
Qed.

(** X13. The distinct sizes other than the title size are listed in
    strictly descending order, and a group whose size is not the title
    size gets its level from the rank of its size in that list: H1 for
    the largest, H2 and H3 for the next two, and none from the fourth
    on. *)
Theorem level_by_rank_of_size ts grouped thr :
  make_thresholds (unique_sizes_of ts grouped) = Some thr ->
  StronglySorted Qdesc_strict (unique_sizes_of ts grouped)
  /\ forall c, c ∈ grouped -> differs_from_title ts (c_size c) = true ->
       exists i u,
         unique_sizes_of ts grouped !! i = Some u
         /\ (c_size c == u)%Q
         /\ detect_heading_level (c_size c) thr ts = level_of_index i.
Proof.
  intros Hthr. split; [apply unique_sizes_strict|]. intros c Hc Hd.
  assert (Hs : c_size c ∈ heading_sizes_of ts grouped).
  { apply list_elem_of_filter. split; [by rewrite Hd|].
    by apply list_elem_of_In, in_map, list_elem_of_In. }
  destruct (set_of_complete _ _ Hs) as (u & Hu & Heq).
  apply (proj2 (sorted_reverse_elem _ _)) in Hu.
  fold (unique_sizes_of ts grouped) in Hu.
  destruct (proj1 (list_elem_of_lookup _ _) Hu) as [i Hi].
  exists i, u. split; [done|]. split; [done|].
  rewrite (detect_heading_level_Qeq _ _ _ _ Heq).
  apply (level_of_unique_size (unique_sizes_of ts grouped)); try done.
  - apply unique_sizes_strict.
  - apply Forall_forall. apply unique_sizes_differ.
Qed.

Lemma level_by_rank_of_size_witness :
  StronglySorted Qdesc_strict
    (unique_sizes_of (Some 24%Q) repeated_title_groups)
  /\ forall c, c ∈ repeated_title_groups ->
       differs_from_title (Some 24%Q) (c_size c) = true ->
       exists i u,
         unique_sizes_of (Some 24%Q) repeated_title_groups !! i = Some u
         /\ (c_size c == u)%Q
         /\ detect_heading_level (c_size c) repeated_title_thresholds
              (Some 24%Q) = level_of_index i.
Proof.
  apply level_by_rank_of_size. by vm_compute.
Defined.

Lemma enumerated_pages_range k (doc : document) :
  Forall (fun c => (k <= c_page c < k + length doc)%nat)
         (concat (map candidates_of_page (enumerate_from k doc))).
Proof.
  revert k. induction doc as [|p ps IH]; intros k; [constructor|].
  simpl. change (zip (seq (S k) (length ps)) ps) with (enumerate_from (S k) ps).
  apply Forall_app. split.
  - eapply Forall_impl; [apply (candidates_of_page_spec (k, p))|].
    simpl. intros c [_ ->]. lia.
  - eapply Forall_impl; [apply (IH (S k))|]. simpl. intros c ?. lia.
Qed.

(** X16. Every heading of the outline carries a page number of the
    document, between 1 and the number of pages. *)
Theorem outline_pages_in_range pdf_path doc r :
  extract_outline pdf_path doc = Some r ->
  Forall (fun h => (1 <= h_page h <= length doc)%nat) (outline r).
Proof.
  destruct doc as [|first_page others]; [done|]. intros Hr.
  destruct (extract_outline_cases pdf_path first_page others)
    as (grouped & Hg & _ & [[_ Ho]|(thr & _ & _ & _ & _ & Ho)]);
    rewrite Ho in Hr; injection Hr as <-; cbn [outline]; [constructor|].
  apply Forall_forall. intros h Hh. rewrite assemble_emit in Hh.
  apply emit_origin in Hh as (pre & c & post & -> & _ & _ & _ & _ & ->).
  destruct (group_multiline_headings_runs _ _ Hg) as (runs & Hruns & Hall).
  destruct (grouped_page_in_run _ _ c Hall) as (c' & Hc' & <-).
  { apply elem_of_app. right. constructor. }
  rewrite Hruns, collect_candidates_flat in Hc'.
  pose proof (enumerated_pages_range 1 (first_page :: others)) as Hrange.
  rewrite Forall_forall in Hrange. apply Hrange in Hc'. lia.
Qed.

Lemma outline_pages_in_range_witness :
  exists r,
    extract_outline (lit "/in/report.pdf") sample_doc = Some r
    /\ Forall (fun h => (1 <= h_page h <= length sample_doc)%nat) (outline r).
Proof.
  eexists. split; [vm_compute; reflexivity|].
  apply (outline_pages_in_range (lit "/in/report.pdf")).
  vm_compute; reflexivity.
Defined.

Lemma take_while_all (p : ascii -> bool) s rest c :
  Forall (fun d => p d = true) s -> p c = false ->
  take_while p (s ++ c :: rest) = s.
Proof.
  intros Hs Hc. induction Hs as [|d s Hd _ IH]; simpl.
  - by rewrite Hc.
  - by rewrite Hd, IH.
Qed.

(** [os.path.basename] returns what follows the last slash. *)
Lemma basename_after_slash dir file :
  "/"%char ∉ file -> basename (dir ++ "/"%char :: file) = file.
Proof.
  intros Hfile. unfold basename.
  rewrite rev_app_distr. cbn [rev]. rewrite <-app_assoc. cbn [app].
  rewrite take_while_all; [by rewrite rev_involutive| |].
  - apply Forall_forall. intros d Hd. apply negb_true_iff, bool_decide_eq_false.
    intros ->. apply Hfile. by apply list_elem_of_In, in_rev, list_elem_of_In.
  - by rewrite bool_decide_eq_true_2.
Qed.

(** Removing [".pdf"] from a name without a dot followed by [".pdf"]
    leaves the name. *)
Lemma replace_pdf_suffix name :
  "."%char ∉ name -> replace (lit ".pdf") [] (name ++ lit ".pdf") = name.
Proof.
  intros Hname. unfold replace, sub.
  induction name as [|c name IH]; [done|].
  cbn [app length sub_from].
  assert (startswith (lit ".pdf") (c :: name ++ lit ".pdf") = false) as ->.
  { simpl. rewrite bool_decide_eq_false_2; [done|]. intros <-.
    apply Hname. constructor. }
  rewrite IH; [done|]. intros ?. apply Hname. by constructor.
Qed.

(** X15. For a document whose first page has no eligible span and a path
    [dir/name.pdf], with no slash and no dot in [name], the title of the
    result is [name]. *)
Theorem title_falls_back_to_file_name dir name first_page others r :
  Forall (fun sp => title_eligible sp = false) (page_spans first_page) ->
  "/"%char ∉ name -> "."%char ∉ name ->
  extract_outline (dir ++ "/"%char :: name ++ lit ".pdf")
                  (first_page :: others) = Some r ->
  title r = name.
Proof.
  intros Hno Hslash Hdot Hr.
  assert (Htitle : title r
                   = title_of (dir ++ "/"%char :: name ++ lit ".pdf") first_page).
  { destruct (extract_outline_cases (dir ++ "/"%char :: name ++ lit ".pdf")
                first_page others)
      as (grouped & _ & _ & [[_ Ho]|(thr & _ & _ & _ & _ & Ho)]);
      rewrite Ho in Hr; by injection Hr as <-. }
  rewrite Htitle. unfold title_of, extract_title.
  rewrite title_first_pass_flat, first_pass_no_eligible by done.
  cbn [map max_of fst]. rewrite basename_after_slash.
  - by apply replace_pdf_suffix.
  - assert (Hpdf : "/"%char ∉ lit ".pdf")
      by (apply (bool_decide_unpack _); by vm_compute).
    by intros [?|?]%elem_of_app.
Qed.

Lemma title_falls_back_to_file_name_witness :
  exists r,
    extract_outline (lit "/in" ++ "/"%char :: lit "notes" ++ lit ".pdf")
                    ([] :: []) = Some r
    /\ title r = lit "notes".
Proof.
  eexists. split; [vm_compute; reflexivity|].
  apply (title_falls_back_to_file_name (lit "/in") (lit "notes") [] []).
  - constructor.
  - apply (bool_decide_unpack _). by vm_compute.
  - apply (bool_decide_unpack _). by vm_compute.
  - vm_compute; reflexivity.
Defined.

(** ** The utilities: detect_headings and extract_pdf_elements *)

Lemma Qeq_bool_false_lt a b : (a < b)%Q -> Qeq_bool b a = false.
Proof.
  intros Hlt. destruct (Qeq_bool b a) eqn:H; [|done].
  apply Qeq_bool_iff in H. rewrite H in Hlt. by apply Qlt_irrefl in Hlt.
Qed.

Lemma Qeq_bool_comm a b : Qeq_bool a b = Qeq_bool b a.
Proof.
  apply eq_true_iff_eq. rewrite !Qeq_bool_iff. split; intros H; by symmetry.
Qed.

Lemma Qeq_bool_trans_false a b s :
  Qeq_bool a b = false -> Qeq_bool b s = true -> Qeq_bool a s = false.
Proof.
  intros Hab Hbs. destruct (Qeq_bool a s) eqn:Has; [|done].
  apply Qeq_bool_iff in Hbs, Has.
  assert (Heq : (a == b)%Q) by (by rewrite Has, Hbs).
  apply Qeq_bool_iff in Heq. congruence.
Qed.

Lemma size_to_level_lookup us s :
  StronglySorted Qdesc_strict us ->
  rank_dict_get s (size_to_level us) = rank_lookup us s.
Proof.
  unfold Qdesc_strict. intros Hs.
  destruct us as [|u0 [|u1 [|u2 [|u3 us]]]]; [done|done|..].
  - apply StronglySorted_cons in Hs as [[H01 _]%Forall_cons _].
    cbn. by rewrite (Qeq_bool_false_lt _ _ H01).
  - apply StronglySorted_cons in Hs as [[H01 [H02 _]%Forall_cons]%Forall_cons Hs].
    apply StronglySorted_cons in Hs as [[H12 _]%Forall_cons _].
    cbn. rewrite (Qeq_bool_false_lt _ _ H01). cbn.
    rewrite (Qeq_bool_false_lt _ _ H02), (Qeq_bool_false_lt _ _ H12). done.
  - apply StronglySorted_cons in Hs
      as [[H01 [H02 [H03 _]%Forall_cons]%Forall_cons]%Forall_cons Hs].
    apply StronglySorted_cons in Hs as [[H12 [H13 _]%Forall_cons]%Forall_cons Hs].
    apply StronglySorted_cons in Hs as [[H23 _]%Forall_cons _].
    cbn. rewrite (Qeq_bool_false_lt _ _ H01). cbn.
    rewrite (Qeq_bool_false_lt _ _ H02), (Qeq_bool_false_lt _ _ H12). cbn.
    rewrite (Qeq_bool_false_lt _ _ H03), (Qeq_bool_false_lt _ _ H13),
      (Qeq_bool_false_lt _ _ H23). done.
Qed.

(** What the loop of [detect_headings] builds from any dictionary. *)
Lemma detect_fold d elements o :
  let r := fold_left (detect_step d) elements o in
  ro_title r
  = title_after (ro_title o)
      (map el_text (List.filter (sent_to d RkTitle) elements))
  /\ ro_h1 r = ro_h1 o ++ map entry_of (List.filter (sent_to d RkH1) elements)
  /\ ro_h2 r = ro_h2 o ++ map entry_of (List.filter (sent_to d RkH2) elements)
  /\ ro_h3 r = ro_h3 o ++ map entry_of (List.filter (sent_to d RkH3) elements).
Proof.
  revert o. induction elements as [|el els IH]; intros o.
  { cbn. by rewrite !app_nil_r. }
  cbn [fold_left]. destruct (IH (detect_step d o el)) as (Ht & H1 & H2 & H3).
  cbv zeta. rewrite Ht, H1, H2, H3. clear.
  unfold detect_step, sent_to. cbn [List.filter].
  destruct (rank_dict_get (el_size el) d) as [[| | |]|]; cbn;
    rewrite <-?app_assoc; try done.
  by destruct (title_missing (ro_title o)).
Qed.

Lemma title_after_set t texts :
  title_missing t = false -> title_after t texts = t.
Proof.
  intros Ht. induction texts as [|x texts IH]; [done|].
  unfold title_after in *. cbn [fold_left]. by rewrite Ht.
Qed.

Lemma title_after_missing t texts :
  title_missing t = true ->
  title_after t texts = match texts with [] => t | _ => title_from texts end.
Proof.
  revert t. induction texts as [|x texts IH]; intros t Ht; [done|].
  unfold title_after. cbn [fold_left]. rewrite Ht.
  fold (title_after (Some x) texts). unfold title_from. cbn [List.filter].
  destruct (decide (x = [])) as [->|Hx].
  - rewrite IH by done. rewrite bool_decide_eq_true_2 by done. cbn [negb].
    by destruct texts.
  - rewrite title_after_set by by apply bool_decide_eq_false.
    by rewrite bool_decide_eq_false_2.
Qed.

Lemma insert_by_neg_size_elem x l y :
  y ∈ insert_by_neg_size x l <-> y = x \/ y ∈ l.
Proof.
  induction l as [|z l IH]; simpl.
  { rewrite list_elem_of_singleton. set_solver. }
  destruct (Qle_bool _ _).
  - rewrite elem_of_cons. tauto.
  - rewrite !elem_of_cons, IH. tauto.
Qed.

Lemma sorted_elements_elem elements y :
  y ∈ sorted_elements elements <-> y ∈ elements.
Proof.
  induction elements as [|x xs IH]; [done|]. cbn [sorted_elements foldr].
  fold (sorted_elements xs).
  rewrite insert_by_neg_size_elem, IH, elem_of_cons. tauto.
Qed.

Lemma set_of_sound xs u : u ∈ set_of xs -> u ∈ xs.
Proof.
  pose proof (set_of_Forall (fun u => u ∈ xs) xs) as H.
  rewrite !Forall_forall in H. by apply H.
Qed.

Lemma detect_unique_sizes_strict elements :
  StronglySorted Qdesc_strict (detect_unique_sizes elements).
Proof. apply sorted_reverse_strict, set_of_distinct. Qed.

(** X19. The list [unique_sizes] of [detect_headings] is strictly
    descending and holds exactly the sizes of the elements, each once up
    to numeric equality; it is empty only without elements. *)
Theorem detect_unique_sizes_spec elements :
  StronglySorted Qdesc_strict (detect_unique_sizes elements)
  /\ (forall el, el ∈ elements ->
        exists u, u ∈ detect_unique_sizes elements /\ (el_size el == u)%Q)
  /\ (forall u, u ∈ detect_unique_sizes elements ->
        exists el, el ∈ elements /\ el_size el = u)
  /\ (detect_unique_sizes elements = [] <-> elements = []).
Proof.
  split; [apply detect_unique_sizes_strict|].
  assert (Hcomplete : forall el, el ∈ elements ->
    exists u, u ∈ detect_unique_sizes elements /\ (el_size el == u)%Q).
  { intros el Hel. apply sorted_elements_elem in Hel.
    destruct (set_of_complete (map el_size (sorted_elements elements))
                (el_size el)) as (u & Hu & Heq).
    { by apply list_elem_of_In, in_map, list_elem_of_In. }
    exists u. split; [|done]. by apply sorted_reverse_elem. }
  split; [done|]. split.
  - intros u Hu%(proj1 (sorted_reverse_elem _ _))%set_of_sound.
    apply list_elem_of_In, in_map_iff in Hu as (el & <- & Hel).
    exists el. split; [|done].
    by apply sorted_elements_elem, list_elem_of_In.
  - split; [|by intros ->].
    intros Hnil. destruct elements as [|el els]; [done|].
    destruct (Hcomplete el) as (u & Hu & _); [constructor|].
    rewrite Hnil in Hu. by apply elem_of_nil in Hu.
Qed.

Lemma rank_lookup_index us s k :
  StronglySorted Qdesc_strict us -> (k < 4)%nat ->
  match rank_lookup us s,
        match k with 0 => RkTitle | 1 => RkH1 | 2 => RkH2 | _ => RkH3 end%nat
  with
  | Some RkTitle, RkTitle | Some RkH1, RkH1
  | Some RkH2, RkH2 | Some RkH3, RkH3 => true
  | _, _ => false
  end
  = match us !! k with
    | Some u => Qeq_bool s u
    | None => false
    end.
Proof.
  unfold Qdesc_strict. intros Hs Hk.
  assert (Hne : forall a b, (a < b)%Q -> Qeq_bool s a = true ->
                            Qeq_bool b s = false).
  { intros a b Hlt Hsa.
    apply (Qeq_bool_trans_false _ a); [|by rewrite Qeq_bool_comm].
    by apply Qeq_bool_false_lt. }
  destruct us as [|u0 [|u1 [|u2 [|u3 us]]]];
    repeat match goal with
    | H : StronglySorted _ (_ :: _) |- _ =>
        apply StronglySorted_cons in H as [? ?]
    | H : Forall _ (_ :: _) |- _ => apply Forall_cons in H as [? ?]
    end;
    destruct k as [|[|[|[|]]]]; try lia; cbn [rank_lookup lookup list_lookup];
    try (repeat match goal with
         | |- context [if Qeq_bool ?a ?b then _ else _] =>
             destruct (Qeq_bool a b)
         end; done);
    match goal with
    | |- _ = Qeq_bool s ?u =>
        rewrite (Qeq_bool_comm u s); destruct (Qeq_bool s u) eqn:Hq;
        [ repeat match goal with
                 | H : (u < ?b)%Q |- _ => rewrite (Hne u b H Hq); clear H
                 end; done
        | repeat match goal with
                 | |- context [if Qeq_bool ?a ?b then _ else _] =>
                     destruct (Qeq_bool a b)
                 end; done ]
    end.
Qed.

Lemma sent_to_rank elements lv k el :
  (k < 4)%nat ->
  lv = match k with 0 => RkTitle | 1 => RkH1 | 2 => RkH2 | _ => RkH3 end%nat ->
  sent_to (size_to_level (detect_unique_sizes elements)) lv el
  = match detect_unique_sizes elements !! k with
    | Some u => Qeq_bool (el_size el) u
    | None => false
    end.
Proof.
  intros Hk ->. unfold sent_to.
  pose proof (detect_unique_sizes_strict elements) as Hs.
  rewrite size_to_level_lookup by done. by apply rank_lookup_index.
Qed.

Lemma filter_sent_to elements lv k l :
  (k < 4)%nat ->
  lv = match k with 0 => RkTitle | 1 => RkH1 | 2 => RkH2 | _ => RkH3 end%nat ->
  List.filter (sent_to (size_to_level (detect_unique_sizes elements)) lv) l
  = match detect_unique_sizes elements !! k with
    | Some u => List.filter (fun el => Qeq_bool (el_size el) u) l
    | None => []
    end.
Proof.
  intros Hk Hlv.
  rewrite (filter_ext _ _ (fun el => sent_to_rank elements lv k el Hk Hlv)).
  destruct (detect_unique_sizes elements !! k); [done|].
  induction l; [done|]. done.
Qed.

(** X17. The lists ["h1"], ["h2"] and ["h3"] of [detect_headings] hold,
    in the order of the input, the text and page of exactly the elements
    of the second, third and fourth largest size; a list is empty when
    there are not that many distinct sizes. *)
Theorem detect_headings_lists elements :
  ro_h1 (detect_headings elements) = entries_of_rank 1 elements
  /\ ro_h2 (detect_headings elements) = entries_of_rank 2 elements
  /\ ro_h3 (detect_headings elements) = entries_of_rank 3 elements.
Proof.
  unfold detect_headings, entries_of_rank, entries_of_size.
  destruct (detect_fold (size_to_level (detect_unique_sizes elements))
              elements (RankOutline None [] [] [])) as (_ & -> & -> & ->).
  cbn [ro_h1 ro_h2 ro_h3 app].
  rewrite (filter_sent_to elements RkH1 1), (filter_sent_to elements RkH2 2),
    (filter_sent_to elements RkH3 3) by (done || lia).
  repeat split; by destruct (_ !! _).
Qed.

(** X18. The title of [detect_headings] is the first text that is not
    empty among the elements of the largest size, in the order of the
    input; it is the empty text when all their texts are empty, and
    absent only without elements. *)
Theorem detect_headings_title elements :
  ro_title (detect_headings elements)
  = match detect_unique_sizes elements !! 0%nat with
    | Some u0 =>
        title_from
          (map el_text
               (List.filter (fun el => Qeq_bool (el_size el) u0) elements))
    | None => None
    end.
Proof.
  unfold detect_headings.
  destruct (detect_fold (size_to_level (detect_unique_sizes elements))
              elements (RankOutline None [] [] [])) as (-> & _).
  cbn [ro_title]. rewrite (filter_sent_to elements RkTitle 0) by (done || lia).
  rewrite title_after_missing by done.
  destruct (_ !! _); [|done]. by destruct (map _ _).
Qed.

Lemma add_span_element_app n elements sp :
  add_span_element n elements sp = elements ++ span_elements n sp.
Proof.
  unfold span_elements, add_span_element.
  destruct (strip (rs_text sp)); [by rewrite app_nil_r|done].
Qed.

Lemma fold_left_appending {A B} (f : list A -> B -> list A)
    (g : B -> list A) l acc :
  (forall acc x, f acc x = acc ++ g x) ->
  fold_left f l acc = acc ++ concat (map g l).
Proof.
  intros Hf. revert acc. induction l as [|x l IH]; intros acc.
  { simpl. by rewrite app_nil_r. }
  simpl. by rewrite IH, Hf, app_assoc.
Qed.

Lemma add_block_elements_app n elements b :
  add_block_elements n elements b = elements ++ raw_block_elements n b.
Proof.
  unfold add_block_elements, raw_block_elements.
  destruct (rb_lines b) as [lines|]; [|by rewrite app_nil_r]. cbn [default].
  apply fold_left_appending. intros acc line.
  apply fold_left_appending. apply add_span_element_app.
Qed.

Lemma extract_pdf_elements_flat doc :
  extract_pdf_elements doc
  = concat (map raw_page_elements (enumerate_from 1 doc)).
Proof.
  unfold extract_pdf_elements.
  rewrite (fold_left_appending _ raw_page_elements); [done|].
  intros acc [n blocks]. unfold raw_page_elements. cbn [fst snd].
  apply fold_left_appending. apply add_block_elements_app.
Qed.

Lemma raw_page_elements_spec numbered :
  Forall (fun el => el_text el <> [] /\ strip (el_text el) = el_text el
                    /\ el_page el = numbered.1)
         (raw_page_elements numbered).
Proof.
  unfold raw_page_elements, raw_block_elements.
  apply Forall_concat, Forall_map, Forall_forall. intros b _.
  apply Forall_concat, Forall_map, Forall_forall. intros line _.
  apply Forall_concat, Forall_map, Forall_forall. intros sp _.
  unfold span_elements, add_span_element.
  destruct (strip (rs_text sp)) as [|c t] eqn:Hs; constructor; [|constructor].
  cbn [el_text el_page]. split; [done|]. split; [|done].
  by rewrite <-Hs, strip_idempotent.
Qed.

Lemma raw_pages_spec k (doc : list (list raw_block)) :
  let els := concat (map raw_page_elements (enumerate_from k doc)) in
  Forall (fun el => el_text el <> [] /\ strip (el_text el) = el_text el
                    /\ (k <= el_page el < k + length doc)%nat) els
  /\ StronglySorted le (map el_page els).
Proof.
  revert k. induction doc as [|p ps IH]; intros k; simpl.
  { split; constructor. }
  change (zip (seq (S k) (length ps)) ps) with (enumerate_from (S k) ps).
  destruct (IH (S k)) as [Hall Hsorted].
  pose proof (raw_page_elements_spec (k, p)) as Hp. cbn [fst] in Hp. split.
  - apply Forall_app. split.
    + eapply Forall_impl; [exact Hp|]. intros el (? & ? & ->).
      repeat split; try done; lia.
    + eapply Forall_impl; [exact Hall|]. intros el (? & ? & ?).
      repeat split; try done; simpl in *; lia.
  - rewrite map_app. apply StronglySorted_app_2; [|
      apply (constant_pages_sorted k), Forall_map;
      eapply Forall_impl; [exact Hp|]; by intros el (_ & _ & ->) | done].
    intros x1 x2 [e1 [<- H1]]%list_elem_of_In%in_map_iff
                 [e2 [<- H2]]%list_elem_of_In%in_map_iff.
    rewrite Forall_forall in Hp, Hall. apply list_elem_of_In in H1, H2.
    destruct (Hp e1 H1) as (_ & _ & ->).
    destruct (Hall e2 H2) as (_ & _ & ?). simpl in *. lia.
Qed.

Lemma extract_pdf_elements_each doc :
  Forall (fun el => el_text el <> [] /\ strip (el_text el) = el_text el
                    /\ (1 <= el_page el <= length doc)%nat)
         (extract_pdf_elements doc).
Proof.
  rewrite extract_pdf_elements_flat.
  destruct (raw_pages_spec 1 doc) as [Hall _].
  eapply Forall_impl; [exact Hall|]. intros el (? & ? & ?).
  repeat split; try done; lia.
Qed.

(** X20. Every element [extract_pdf_elements] returns has a text that is
    not empty and has no white space at its ends, and a page number of
    the document; the elements come in page order. Blocks without lines
    and spans of white space add nothing. *)
Theorem extract_pdf_elements_spec doc :
  Forall (fun el => el_text el <> [] /\ strip (el_text el) = el_text el
                    /\ (1 <= el_page el <= length doc)%nat)
         (extract_pdf_elements doc)
  /\ StronglySorted le (map el_page (extract_pdf_elements doc)).
Proof.
  split; [apply extract_pdf_elements_each|].
  rewrite extract_pdf_elements_flat. apply (raw_pages_spec 1 doc).
Qed.

Lemma title_from_nonempty texts :
  Forall (fun t => t <> []) texts -> title_from texts = head texts.
Proof.
  destruct 1 as [|t texts Ht _]; [done|]. unfold title_from.
  cbn [List.filter]. by rewrite bool_decide_eq_false_2.
Qed.

Lemma filter_Forall {A} (P : A -> Prop) (f : A -> bool) l :
  Forall P l -> Forall P (List.filter f l).
Proof.
  induction 1 as [|x l Hx _ IH]; [constructor|]. simpl.
  destruct (f x); [by constructor|done].
Qed.

(** X21. On the elements of [extract_pdf_elements] the title of
    [detect_headings] is the text of the first element of the largest
    size, and every entry of the three heading lists has a text that is
    not empty and a page number of the document. *)
Theorem detect_headings_of_extracted doc :
  let elements := extract_pdf_elements doc in
  let r := detect_headings elements in
  ro_title r
  = match detect_unique_sizes elements !! 0%nat with
    | Some u0 =>
        head (map el_text
                (List.filter (fun el => Qeq_bool (el_size el) u0) elements))
    | None => None
    end
  /\ Forall (fun e => re_text e <> []
                      /\ (1 <= re_page e <= length doc)%nat)
            (ro_h1 r ++ ro_h2 r ++ ro_h3 r).
Proof.
  intros elements r. subst r. unfold detect_headings.
  pose proof (extract_pdf_elements_each doc) as Hel. fold elements in Hel.
  destruct (detect_fold (size_to_level (detect_unique_sizes elements))
              elements (RankOutline None [] [] [])) as (-> & -> & -> & ->).
  cbn [ro_title ro_h1 ro_h2 ro_h3 app]. split.
  - rewrite (filter_sent_to elements RkTitle 0) by (done || lia).
    rewrite title_after_missing by done.
    destruct (_ !! _) as [u0|]; [|done].
    rewrite <-title_from_nonempty.
    + by destruct (map _ _).
    + apply Forall_map, filter_Forall.
      eapply Forall_impl; [exact Hel|]. by intros el (? & _).
  - assert (Hentries : forall lv,
      Forall (fun e => re_text e <> [] /\ (1 <= re_page e <= length doc)%nat)
        (map entry_of
           (List.filter
              (sent_to (size_to_level (detect_unique_sizes elements)) lv)
              elements))).
    { intros lv. apply Forall_map, filter_Forall.
      eapply Forall_impl; [exact Hel|]. by intros el (? & _ & ?). }
    rewrite !Forall_app. repeat split; apply Hentries.
Qed.

(** The example of the docstring of [detect_headings]. *)
Example detect_headings_docstring :
  detect_headings
    [ Element (lit "Document Title") 20 (lit "Arial") 1;
      Element (lit "Chapter 1") 16 (lit "Arial") 1;
      Element (lit "Section 1.1") 14 (lit "Arial") 2 ]
  = RankOutline (Some (lit "Document Title"))
      [RankEntry (lit "Chapter 1") 1] [RankEntry (lit "Section 1.1") 2] [].
Proof. by vm_compute. Qed.

(** ** The title and its lines *)

Lemma join_snoc sep xs t :
  join sep (xs ++ [t]) = match xs with [] => t | _ => join sep xs ++ sep ++ t end.
Proof.
  induction xs as [|x xs IH]; [done|].
  destruct xs as [|y xs]; [done|].
  change ((x :: y :: xs) ++ [t]) with (x :: (y :: xs) ++ [t]).
  cbn [app]. rewrite join_cons_cons.
  change (y :: xs ++ [t]) with ((y :: xs) ++ [t]). rewrite IH.
  rewrite join_cons_cons. by rewrite <-!app_assoc.
Qed.

Lemma holds_texts_snoc st st' texts t :
  holds_texts st texts ->
  join (lit " ") (title_blocks st')
  = match title_blocks st with
    | [] => t
    | _ => join (lit " ") (title_blocks st) ++ lit " " ++ t
    end ->
  title_blocks st' <> [] ->
  holds_texts st' (texts ++ [t]).
Proof.
  intros [Hj He] Hst' Hne. split.
  - rewrite Hst', join_snoc, Hj.
    destruct (title_blocks st) as [|b bs] eqn:Hb.
    + by rewrite (proj1 He eq_refl).
    + destruct texts as [|x xs]; [|done].
      by pose proof (proj2 He eq_refl).
  - split; [done|]. by destruct texts.
Qed.

Lemma join_snoc_cons sep x xs t :
  join sep ((x :: xs) ++ [t]) = join sep (x :: xs) ++ sep ++ t.
Proof. by rewrite join_snoc. Qed.

Lemma title_line_holds m pos st l texts :
  holds_texts st texts ->
  holds_texts (title_line m pos st l)
              (texts ++ title_texts m [l]).
Proof.
  intros Hst. unfold title_texts. cbn [omap list_omap].
  unfold title_line, title_line_text.
  destruct (fold_left _ _ _) as [line_texts [|]]; cbn [app];
    [|by rewrite app_nil_r].
  set (t := join (lit " ") line_texts).
  destruct (match previous_block_pos st with Some _ => _ | None => _ end)
    eqn:Hcont.
  - assert (Hcur : current_title_block st <> []).
    { destruct (previous_block_pos st); [|done].
      apply andb_true_iff in Hcont as [_ Hlen].
      by destruct (current_title_block st). }
    destruct (current_title_block st) as [|c cs] eqn:Hc; [done|].
    apply (holds_texts_snoc st).
    + done.
    + unfold title_blocks. cbn [current_title_block title_parts].
      rewrite Hc. change ((c :: cs) ++ [t]) with (c :: (cs ++ [t])).
      cbn iota. change (c :: (cs ++ [t])) with ((c :: cs) ++ [t]).
      rewrite (join_snoc_cons _ c cs t).
      destruct (title_parts st) as [|p ps].
      * done.
      * rewrite !join_snoc_cons. by rewrite <-!app_assoc.
    + unfold title_blocks. cbn [current_title_block title_parts].
      change ((c :: cs) ++ [t]) with (c :: (cs ++ [t])). cbn iota.
      by destruct (title_parts st).
  - apply (holds_texts_snoc st).
    + done.
    + unfold title_blocks at 1. cbn [current_title_block title_parts].
      fold (title_blocks st). cbn [join]. by rewrite join_snoc.
    + unfold title_blocks at 1. cbn [current_title_block title_parts].
      by destruct (match current_title_block st with [] => _ | _ => _ end).
Qed.

Lemma title_texts_cons m l lines :
  title_texts m (l :: lines) = title_texts m [l] ++ title_texts m lines.
Proof.
  unfold title_texts. cbn [omap list_omap].
  by destruct (title_line_text m l).
Qed.

Lemma title_lines_hold m pos lines st texts :
  holds_texts st texts ->
  holds_texts (fold_left (title_line m pos) lines st)
              (texts ++ title_texts m lines).
Proof.
  revert st texts. induction lines as [|l lines IH]; intros st texts Hst.
  { by rewrite app_nil_r. }
  cbn [fold_left]. rewrite title_texts_cons, app_assoc.
  by apply IH, title_line_holds.
Qed.

Lemma second_pass_holds m blocks :
  holds_texts (title_second_pass m blocks) (page_title_texts m blocks).
Proof.
  unfold title_second_pass, page_title_texts.
  assert (Hgen : forall st texts, holds_texts st texts ->
    holds_texts
      (fold_left (fun st b =>
         fold_left (title_line m (default 0%Q (block_bbox b)))
                   (get_list (block_lines b)) st) blocks st)
      (texts ++ concat (map (fun b => title_texts m (get_list (block_lines b)))
                            blocks))).
  { induction blocks as [|b bs IH]; intros st texts Hst.
    { by rewrite app_nil_r. }
    cbn [fold_left map concat]. rewrite app_assoc.
    by apply IH, title_lines_hold. }
  apply (Hgen _ []). by split.
Qed.

(** What [extract_title] returns, without the grouping into title blocks. *)
Lemma extract_title_unfold blocks :
  extract_title blocks
  = match max_of (map fst (title_first_pass blocks)) with
    | None => ([], None)
    | Some m =>
        (clean_text (join (lit " ") (page_title_texts m blocks)), Some m)
    end.
Proof.
  unfold extract_title.
  destruct (max_of _) as [m|]; [|done].
  destruct (second_pass_holds m blocks) as [<- _]. done.
Qed.

Lemma title_first_pass_positions pos blocks :
  title_first_pass (with_positions pos blocks) = title_first_pass blocks.
Proof.
  unfold title_first_pass, with_positions. rewrite fold_left_map. done.
Qed.

Lemma page_title_texts_positions pos m blocks :
  page_title_texts m (with_positions pos blocks) = page_title_texts m blocks.
Proof.
  unfold page_title_texts, with_positions. by rewrite map_map.
Qed.

(** X22. When a title size [m] was found, the title text is the clean
    text of the texts of all title lines of the page (the lines with a
    span of size [m] that is not noisy), in reading order and joined by
    single spaces. *)
Theorem title_text_from_title_lines blocks m :
  title_size_of blocks = Some m ->
  (extract_title blocks).1
  = clean_text (join (lit " ") (page_title_texts m blocks)).
Proof.
  unfold title_size_of. rewrite extract_title_unfold.
  destruct (max_of _) as [m'|]; [|done]. cbn [fst snd]. by intros [= ->].
Qed.

Lemma title_text_from_title_lines_witness :
  (extract_title (hd [] sample_doc)).1
  = clean_text (join (lit " ")
                  (page_title_texts (round1 24) (hd [] sample_doc))).
Proof.
  apply title_text_from_title_lines. by vm_compute.
Defined.

(** X23. The positions of the blocks have no effect on what
    [extract_title] returns: whether two title lines are less than 20
    units apart or not, and whether a block has a position at all, the
    same title comes out. *)
Theorem extract_title_ignores_positions pos blocks :
  extract_title (with_positions pos blocks) = extract_title blocks.
Proof.
  rewrite !extract_title_unfold, title_first_pass_positions.
  destruct (max_of _) as [m|]; [|done].
  by rewrite page_title_texts_positions.
Qed.

(** ** The texts of the outline *)

Lemma single_spaced_whitespace_normal t :
  single_spaced_from AtStart t = true -> whitespace_normal t.
Proof.
  intros Ht. split; [|by apply strip_single_spaced].
  unfold split. rewrite (single_spaced_join_split AtStart [] _ Ht);
    [done|constructor|]. split; [done|by intros [=]].
Qed.

Lemma single_spaced_after_char v :
  single_spaced_from AtStart v = true -> single_spaced_from AfterChar v = true.
Proof. destruct v as [|c tl]; [done|]. simpl. by destruct (isspace c). Qed.

Lemma single_spaced_after_space v :
  single_spaced_from AtStart v = true -> v <> [] ->
  single_spaced_from AfterSpace v = true.
Proof. destruct v as [|c tl]; [done|]. simpl. by destruct (isspace c). Qed.

Lemma single_spaced_app st u v :
  single_spaced_from st u = true -> u <> [] ->
  single_spaced_from AfterChar v = true ->
  single_spaced_from st (u ++ v) = true.
Proof.
  revert st. induction u as [|c tl IH]; intros st Hu Hne Hv; [done|].
  cbn [app single_spaced_from] in *. destruct (isspace c).
  - destruct st; try done. apply andb_true_iff in Hu as [-> Hu]. cbn [andb].
    apply IH; [done| |done]. by intros ->.
  - destruct tl as [|d tl]; [done|]. by apply IH.
Qed.

Lemma single_spaced_prefix st p q d :
  single_spaced_from st (p ++ q) = true ->
  last p = Some d -> d <> " "%char ->
  single_spaced_from st p = true.
Proof.
  revert st. induction p as [|c tl IH]; intros st Hpq Hl Hd; [done|].
  cbn [app single_spaced_from] in *. destruct tl as [|c' tl].
  - injection Hl as ->. destruct (isspace d); [|done].
    destruct st; try done. apply andb_true_iff in Hpq as [Hsp _].
    by apply bool_decide_eq_true in Hsp.
  - change (last (c :: c' :: tl)) with (last (c' :: tl)) in Hl.
    destruct (isspace c).
    + destruct st; try done. apply andb_true_iff in Hpq as [-> Hpq].
      cbn [andb]. by apply IH.
    + by apply IH.
Qed.

Lemma last_rev_head {A} (l : list A) : last (rev l) = head l.
Proof. destruct l as [|c tl]; [done|]. cbn [rev]. by rewrite last_snoc. Qed.

Lemma rstrip_by_prefix p s :
  exists q, s = rstrip_by p s ++ q
    /\ forall d, last (rstrip_by p s) = Some d -> p d = false.
Proof.
  unfold rstrip_by. destruct (drop_while_suffix p (rev s)) as [pre Hl].
  exists (rev pre). split.
  - rewrite <-rev_app_distr, <-Hl. by rewrite rev_involutive.
  - intros d Hlast. rewrite last_rev_head in Hlast.
    destruct (drop_while p (rev s)) as [|c tl] eqn:Hd; [done|].
    injection Hlast as ->. exact (drop_while_head _ _ _ _ Hd).
Qed.

Lemma tight_single_spaced u v :
  single_spaced_from AtStart u = true ->
  single_spaced_from AtStart v = true -> v <> [] ->
  single_spaced_from AtStart (rstrip_chars (lit "- ") u ++ v) = true.
Proof.
  intros Hu Hv Hne. unfold rstrip_chars.
  destruct (rstrip_by_prefix (fun c => bool_decide (c ∈ lit "- ")) u)
    as (q & Hq & Hlast).
  destruct (rstrip_by _ u) as [|c tl] eqn:Hr; [done|].
  destruct (last (c :: tl)) as [d|] eqn:Hl.
  2:{ by apply last_None in Hl. }
  apply single_spaced_app; [|done|by apply single_spaced_after_char].
  apply (single_spaced_prefix _ _ q d); [by rewrite <-Hq|done|].
  intros ->. specialize (Hlast _ eq_refl). by vm_compute in Hlast.
Qed.

Lemma spaced_single_spaced u v :
  single_spaced_from AtStart u = true -> u <> [] ->
  single_spaced_from AtStart v = true -> v <> [] ->
  single_spaced_from AtStart (u ++ lit " " ++ v) = true.
Proof.
  intros Hu Hune Hv Hvne. apply single_spaced_app; [done|done|].
  change (lit " " ++ v) with (" "%char :: v). cbn [single_spaced_from].
  change (isspace " ") with true. cbn match.
  rewrite bool_decide_eq_true_2 by done.
  by apply single_spaced_after_space.
Qed.

Lemma joined_single_spaced ts t :
  joined ts t ->
  Forall (fun x => single_spaced_from AtStart x = true /\ x <> []) ts ->
  single_spaced_from AtStart t = true /\ t <> [].
Proof.
  induction 1 as [t|ts acc t _ IH|ts acc t _ IH].
  - by intros [? _]%Forall_cons.
  - intros [Hts [[Ht Hne] _]%Forall_cons]%Forall_app.
    destruct (IH Hts) as [Hacc _]. split.
    + by apply tight_single_spaced.
    + intros [_ ?]%app_eq_nil. done.
  - intros [Hts [[Ht Hne] _]%Forall_cons]%Forall_app.
    destruct (IH Hts) as [Hacc Hane]. split.
    + by apply spaced_single_spaced.
    + intros [? _]%app_eq_nil. done.
Qed.

Lemma line_candidates_single_spaced page_num l :
  Forall (fun c => single_spaced_from AtStart (c_text c) = true
                   /\ c_text c <> [])
         (line_candidates page_num l).
Proof.
  unfold line_candidates.
  destruct (fold_left line_span _ _) as [line_text max_size_in_line].
  destruct (clean_text_unfold (join (lit " ") line_text)) as [_ Hs].
  destruct (clean_text (join (lit " ") line_text)) as [|ch t] eqn:Ht;
    [constructor|].
  destruct (_ && _); constructor; [done|constructor].
Qed.

Lemma collect_candidates_single_spaced doc :
  Forall (fun c => single_spaced_from AtStart (c_text c) = true
                   /\ c_text c <> [])
         (collect_candidates doc).
Proof.
  rewrite collect_candidates_flat.
  apply Forall_concat, Forall_map, Forall_forall. intros np _.
  unfold candidates_of_page, block_candidates.
  apply Forall_concat, Forall_map, Forall_forall. intros b _.
  apply Forall_concat, Forall_map, Forall_forall. intros l _.
  apply line_candidates_single_spaced.
Qed.

Lemma grouped_single_spaced runs gs :
  Forall2 groups_run runs gs ->
  Forall (fun c => single_spaced_from AtStart (c_text c) = true
                   /\ c_text c <> []) (concat runs) ->
  Forall (fun g => single_spaced_from AtStart (c_text g) = true) gs.
Proof.
  induction 1 as [|run g runs gs [Hj _] _ IH]; simpl; [constructor|].
  intros [Hrun Hrest]%Forall_app. constructor; [|by apply IH].
  apply (joined_single_spaced _ _ Hj). by apply Forall_map.
Qed.

(** X24. Every heading text of an outline is in white-space normal form:
    no white space at its ends and only single spaces between its words,
    also where the grouper has merged several lines into it. *)
Theorem outline_texts_whitespace_normal pdf_path doc r :
  extract_outline pdf_path doc = Some r ->
  Forall (fun h => whitespace_normal (h_text h)) (outline r).
Proof.
  destruct doc as [|first_page others]; [done|].
  destruct (extract_outline_cases pdf_path first_page others)
    as (grouped & Hg & _ & [[_ ->]|(thr & _ & _ & _ & _ & ->)]);
    intros [= <-]; cbn [outline]; [constructor|].
  destruct (group_multiline_headings_runs _ _ Hg) as (runs & Hruns & Hall).
  pose proof (collect_candidates_single_spaced (first_page :: others)) as Hc.
  rewrite <-Hruns in Hc.
  pose proof (grouped_single_spaced _ _ Hall Hc) as Hgs.
  rewrite assemble_emit. apply Forall_forall. intros h Hh.
  apply emit_origin in Hh as (pre & c & post & -> & _ & _ & _ & -> & _).
  apply Forall_app in Hgs as [_ [Hs _]%Forall_cons].
  by apply single_spaced_whitespace_normal.
Qed.

Lemma outline_texts_whitespace_normal_witness :
  exists r, extract_outline (lit "in/sample.pdf") sample_doc = Some r
    /\ outline r <> []
    /\ Forall (fun h => whitespace_normal (h_text h)) (outline r).
Proof.
  eexists. split; [by vm_compute|]. split; [by vm_compute|].
  apply (outline_texts_whitespace_normal (lit "in/sample.pdf") sample_doc).
  by vm_compute.
Defined.
